(** * Token vocabulary of [src/vocab.py]

    A shallow embedding of the token enumerations ([Tokens]), of the
    token/index mapping ([Vocab]) and of the persisted token list
    ([RemiVocab]), followed by the properties of the specification.

    Python values are modelled as follows: [int] is [Z], [str] is [string],
    a [list] is a [list], the [dict] [forward_map] is a [gmap string Z], and
    a [Counter] is the list of its [items()] in insertion order.  A call
    that can raise returns a [result].  The file system is an interface
    ([FileSystem]) whose calls may raise; reading and writing a text file
    translate the line endings as Python's text mode does. *)

From Stdlib Require Import ZArith String Ascii List DecimalString DecimalPos DecimalZ Lia.
From stdpp Require Import gmap strings list fin_maps.

Local Open Scope Z_scope.

(** ** Python built-ins used by the source *)

Module Py.

Inductive exn : Type :=
| IndexError
| KeyError
| FileNotFoundError
| IsADirectoryError
| NotADirectoryError
| PermissionError
| UnicodeDecodeError.

Inductive result (A : Type) : Type :=
| Ok (a : A)
| Raise (e : exn).
Arguments Ok {A} a.
Arguments Raise {A} e.

Definition bind {A B} (r : result A) (k : A -> result B) : result B :=
  match r with
  | Ok a => k a
  | Raise e => Raise e
  end.

(** [str(i)] for an [int]. *)
Definition str (i : Z) : string := NilZero.string_of_int (Z.to_int i).

(** [len(l)]. *)
Definition len {A} (l : list A) : Z := Z.of_nat (length l).

(** [range(a, b)]; empty when [b <= a]. *)
Definition range (a b : Z) : list Z :=
  map (fun k => a + Z.of_nat k) (seq 0 (Z.to_nat (b - a))).

(** [enumerate(l)]. *)
Definition enumerate {A} (l : list A) : list (Z * A) :=
  zip (range 0 (len l)) l.

(** [l[idx]]: positions are counted from the end for a negative [idx];
    anything outside [-len(l) <= idx < len(l)] raises [IndexError]. *)
Definition getitem {A} (l : list A) (idx : Z) : result A :=
  let pos := if idx <? 0 then idx + len l else idx in
  if (pos <? 0) || (len l <=? pos) then Raise IndexError
  else match l !! Z.to_nat pos with
       | Some a => Ok a
       | None => Raise IndexError
       end.

(** [d[k]] on a [dict]. *)
Definition dict_getitem (d : gmap string Z) (k : string) : result Z :=
  match d !! k with
  | Some v => Ok v
  | None => Raise KeyError
  end.

(** [d.get(k, dflt)]. *)
Definition dict_get (d : gmap string Z) (k : string) (dflt : Z) : Z :=
  match d !! k with
  | Some v => v
  | None => dflt
  end.

(** [Counter(iterable)], as its [items()]: one pair per distinct element,
    in the order of first occurrence, with the number of occurrences. *)
Fixpoint count_elem (k : string) (d : list (string * Z)) : list (string * Z) :=
  match d with
  | [] => [(k, 1)]
  | (k', n) :: d' =>
      if decide (k = k') then (k', n + 1) :: d' else (k', n) :: count_elem k d'
  end.

Definition Counter (iterable : list string) : list (string * Z) :=
  fold_left (fun d k => count_elem k d) iterable [].

Definition newline : ascii := "010"%char.

(** ['\n'.join(l)]. *)
Definition join_nl (l : list string) : string :=
  String.concat (String newline EmptyString) l.

(** [s.split('\n')]; never the empty list. *)
Fixpoint split_nl (s : string) : list string :=
  match s with
  | EmptyString => [EmptyString]
  | String c s' =>
      if decide (c = newline) then EmptyString :: split_nl s'
      else match split_nl s' with
           | h :: t => String c h :: t
           | [] => [String c EmptyString]
           end
  end.

End Py.

Import Py.

#[global] Instance result_ret : MRet result := @Ok.
#[global] Instance result_bind : MBind result := fun A B k r => Py.bind r k.

(** ** class Vocab *)

Record Vocab : Type := mkVocab {
  forward_map : gmap string Z;
  backward_map : list string;
  default_token : Z;
  specials : list string
}.

(** The two mutable attributes updated by the loops of [__init__]. *)
Definition maps : Type := (gmap string Z * list string)%type.

(** Body of [for i, token in enumerate(self.specials)]. *)
Definition add_special (st : maps) (it : Z * string) : maps :=
  let '(i, token) := it in
  (<[token := i]> (st.1), st.2 ++ [token]).

(** Body of [for token, count in counter.items()]. *)
Definition add_token (st : maps) (it : string * Z) : maps :=
  let '(token, count) := it in
  match st.1 !! token with
  | None => (<[token := len (st.2)]> (st.1), st.2 ++ [token])
  | Some _ => st
  end.

(** [Vocab.__init__(self, counter, specials, unk_token)]. *)
Definition Vocab_init (counter : list (string * Z)) (specials : list string)
    (unk_token : string) : result Vocab :=
  let st0 : maps := (∅, []) in
  let default0 := 0 in
  let st1 := fold_left add_special (enumerate specials) st0 in
  default1 ← (if decide (unk_token ∈ specials)
               then dict_getitem (st1.1) unk_token
               else Ok default0);
  let st2 := fold_left add_token counter st1 in
  Ok (mkVocab (st2.1) (st2.2) default1 specials).

(** [Vocab.to_i]. *)
Definition to_i (self : Vocab) (token : string) : Z :=
  dict_get (forward_map self) token (default_token self).

(** [Vocab.to_s]; [UNK] is the module constant [UNK_TOKEN] of [constants.py]. *)
Definition to_s (UNK : string) (self : Vocab) (idx : Z) : result string :=
  if idx >=? len (backward_map self) then Ok UNK
  else getitem (backward_map self) idx.

(** [Vocab.__len__]. *)
Definition Vocab_len (self : Vocab) : Z := len (backward_map self).

(** [Vocab.encode] and [Vocab.decode] (on a plain sequence of integers). *)
Definition encode (self : Vocab) (seq : list string) : list Z :=
  map (to_i self) seq.

Fixpoint decode (UNK : string) (self : Vocab) (seq : list Z)
    : result (list string) :=
  match seq with
  | [] => Ok []
  | idx :: rest =>
      s ← to_s UNK self idx;
      ss ← decode UNK self rest;
      Ok (s :: ss)
  end.

(** ** class Tokens *)

Section Tokens.

(** [pretty_midi.program_to_instrument_name], an external table. *)
Variable program_to_instrument_name : Z -> string.

(** Constants of [constants.py] read by the enumerations; of a table of
    bins only the length is read. *)
Variables MAX_BAR_LENGTH MAX_N_BARS DEFAULT_POS_PER_QUARTER : Z.
Context {bin : Type}.
Variables DEFAULT_VELOCITY_BINS DEFAULT_DURATION_BINS DEFAULT_TEMPO_BINS : list bin.

(** [f'{key}_{value}']. *)
Definition keyed (key value : string) : string := key +:+ "_" +:+ value.

Definition get_instrument_tokens (key : string) : list string :=
  let tokens := map (fun i => keyed key (program_to_instrument_name i)) (range 0 128) in
  tokens ++ [keyed key "drum"].

Definition default_qualities : list string :=
  ["maj"; "min"; "dim"; "aug"; "dom7"; "maj7"; "min7"; "None"].

Definition pitch_classes : list string :=
  ["C"; "C#"; "D"; "D#"; "E"; "F"; "F#"; "G"; "G#"; "A"; "A#"; "B"].

Definition get_chord_tokens (key : string) (qualities : list string) : list string :=
  let chords :=
    flat_map (fun root => map (fun quality => root +:+ ":" +:+ quality) qualities)
             pitch_classes in
  let chords := chords ++ ["N:N"] in
  map (fun chord => keyed key chord) chords.

Definition get_time_signature_tokens (key : string) : list string :=
  let denominators := [2; 4; 8; 16] in
  let time_sigs :=
    flat_map (fun q => map (fun p => str p +:+ "/" +:+ str q)
                           (range 1 (MAX_BAR_LENGTH * q + 1)))
             denominators in
  map (fun time_sig => keyed key time_sig) time_sigs.

Definition get_midi_tokens
    (instrument_key time_signature_key pitch_key velocity_key
     duration_key tempo_key bar_key position_key : string) : list string :=
  let instrument_tokens := get_instrument_tokens instrument_key in
  let pitch_tokens :=
    map (fun i => keyed pitch_key (str i)) (range 0 128) ++
    map (fun i => keyed pitch_key ("drum_" +:+ str i)) (range 0 128) in
  let velocity_tokens :=
    map (fun i => keyed velocity_key (str i)) (range 0 (len DEFAULT_VELOCITY_BINS)) in
  let duration_tokens :=
    map (fun i => keyed duration_key (str i)) (range 0 (len DEFAULT_DURATION_BINS)) in
  let tempo_tokens :=
    map (fun i => keyed tempo_key (str i)) (range 0 (len DEFAULT_TEMPO_BINS)) in
  let bar_tokens := map (fun i => keyed bar_key (str i)) (range 0 MAX_N_BARS) in
  let position_tokens :=
    map (fun i => keyed position_key (str i))
        (range 0 (MAX_BAR_LENGTH * 4 * DEFAULT_POS_PER_QUARTER)) in
  let time_sig_tokens := get_time_signature_tokens time_signature_key in
  time_sig_tokens ++
  tempo_tokens ++
  instrument_tokens ++
  pitch_tokens ++
  velocity_tokens ++
  duration_tokens ++
  bar_tokens ++
  position_tokens.

End Tokens.

(** ** Text files *)

Definition carriage_return : ascii := "013"%char.

(** What [read()] on a file opened with [open(path, 'r')] makes of the
    characters of the file: every line ending, be it a carriage return
    followed by a newline, a carriage return alone or a newline, is read
    as one newline. *)
Fixpoint universal_newlines (chars : string) : string :=
  match chars with
  | EmptyString => EmptyString
  | String c rest =>
      if decide (c = carriage_return) then
        String newline
          match rest with
          | String c' rest' =>
              if decide (c' = newline) then universal_newlines rest'
              else universal_newlines rest
          | EmptyString => EmptyString
          end
      else String c (universal_newlines rest)
  end.

(** What [write(text)] on a file opened with [open(path, 'w')] puts into
    the file: every newline becomes the line separator of the platform. *)
Fixpoint write_newlines (linesep text : string) : string :=
  match text with
  | EmptyString => EmptyString
  | String c rest =>
      if decide (c = newline) then linesep +:+ write_newlines linesep rest
      else String c (write_newlines linesep rest)
  end.

(** The operating system under [os.path.exists(path)], under
    [open(path, 'r')] with [read()] and under [open(path, 'w')] with
    [write(text)], on a state [fs] of the file system.  [read_chars] gives
    the decoded characters of the file as they are stored and
    [write_chars] stores the characters it is given; either may raise.
    [os_linesep] is [os.linesep], a newline or a carriage return followed
    by a newline. *)
Class FileSystem (fs : Type) : Type := {
  os_linesep : string;
  os_linesep_cases :
    os_linesep = String newline EmptyString ∨
    os_linesep = String carriage_return (String newline EmptyString);
  path_exists : fs -> string -> bool;
  read_chars : fs -> string -> result string;
  write_chars : fs -> string -> string -> result fs
}.

(** [open(path, 'r')] followed by [read()]. *)
Definition read_text `{FileSystem fs} (s : fs) (path : string) : result string :=
  chars ← read_chars s path;
  Ok (universal_newlines chars).

(** [open(path, 'w')] followed by [write(text)]. *)
Definition write_text `{FileSystem fs} (s : fs) (path text : string) : result fs :=
  write_chars s path (write_newlines os_linesep text).

(** ** class RemiVocab *)

(** The two branches of [RemiVocab.__init__] (and, word for word, of
    [DescriptionVocab.__init__]): load the token list when the file exists,
    otherwise take the freshly built list and save it.  Returns
    [self.tokens] and the state of the file system afterwards, or raises
    what reading or writing raises. *)
Definition load_or_build `{FileSystem fs} (build : list string)
    (token_file_path : string) (s : fs) : result (list string * fs) :=
  if path_exists s token_file_path then
    content ← read_text s token_file_path;
    Ok (split_nl content, s)
  else
    s' ← write_text s token_file_path (join_nl build);
    Ok (build, s').

Section RemiVocab.

Variable program_to_instrument_name : Z -> string.
Variables MAX_BAR_LENGTH MAX_N_BARS DEFAULT_POS_PER_QUARTER : Z.
Context {bin : Type}.
Variables DEFAULT_VELOCITY_BINS DEFAULT_DURATION_BINS DEFAULT_TEMPO_BINS : list bin.
Variables INSTRUMENT_KEY TIME_SIGNATURE_KEY PITCH_KEY VELOCITY_KEY
          DURATION_KEY TEMPO_KEY BAR_KEY POSITION_KEY CHORD_KEY : string.
Variables PAD UNK BOS EOS MASK : string.
Context `{FileSystem fs}.

Definition remi_tokens : list string :=
  let midi_tokens :=
    get_midi_tokens program_to_instrument_name
      MAX_BAR_LENGTH MAX_N_BARS DEFAULT_POS_PER_QUARTER
      DEFAULT_VELOCITY_BINS DEFAULT_DURATION_BINS DEFAULT_TEMPO_BINS
      INSTRUMENT_KEY TIME_SIGNATURE_KEY PITCH_KEY VELOCITY_KEY
      DURATION_KEY TEMPO_KEY BAR_KEY POSITION_KEY in
  let chord_tokens := get_chord_tokens CHORD_KEY default_qualities in
  midi_tokens ++ chord_tokens.

(** [RemiVocab.__init__]: the tokens, the Vocab of the superclass
    constructor and the store afterwards. *)
Definition RemiVocab_init (token_file_path : string) (s : fs)
    : result (list string * Vocab * fs) :=
  '(tokens, s') ← load_or_build remi_tokens token_file_path s;
  let counter := Counter tokens in
  v ← Vocab_init counter [PAD; UNK; BOS; EOS; MASK] UNK;
  Ok (tokens, v, s').

End RemiVocab.

(** ** class DescriptionVocab *)

Section DescriptionVocab.

Variable program_to_instrument_name : Z -> string.
Variables MAX_BAR_LENGTH MAX_N_BARS : Z.
Context {bin : Type}.
Variables DEFAULT_NOTE_DENSITY_BINS DEFAULT_MEAN_VELOCITY_BINS
          DEFAULT_MEAN_PITCH_BINS DEFAULT_MEAN_DURATION_BINS : list bin.
Variables TIME_SIGNATURE_KEY INSTRUMENT_KEY CHORD_KEY BAR_KEY
          NOTE_DENSITY_KEY MEAN_VELOCITY_KEY MEAN_PITCH_KEY
          MEAN_DURATION_KEY : string.
Variables PAD UNK BOS EOS MASK : string.
Context `{FileSystem fs}.

Definition description_tokens : list string :=
  let time_sig_tokens :=
    get_time_signature_tokens MAX_BAR_LENGTH TIME_SIGNATURE_KEY in
  let instrument_tokens :=
    get_instrument_tokens program_to_instrument_name INSTRUMENT_KEY in
  let chord_tokens := get_chord_tokens CHORD_KEY default_qualities in
  let bar_tokens := map (fun i => keyed BAR_KEY (str i)) (range 0 MAX_N_BARS) in
  let density_tokens :=
    map (fun i => keyed NOTE_DENSITY_KEY (str i))
        (range 0 (len DEFAULT_NOTE_DENSITY_BINS)) in
  let velocity_tokens :=
    map (fun i => keyed MEAN_VELOCITY_KEY (str i))
        (range 0 (len DEFAULT_MEAN_VELOCITY_BINS)) in
  let pitch_tokens :=
    map (fun i => keyed MEAN_PITCH_KEY (str i))
        (range 0 (len DEFAULT_MEAN_PITCH_BINS)) in
  let duration_tokens :=
    map (fun i => keyed MEAN_DURATION_KEY (str i))
        (range 0 (len DEFAULT_MEAN_DURATION_BINS)) in
  time_sig_tokens ++
  instrument_tokens ++
  chord_tokens ++
  density_tokens ++
  velocity_tokens ++
  pitch_tokens ++
  duration_tokens ++
  bar_tokens.

(** [DescriptionVocab.__init__]. *)
Definition DescriptionVocab_init (token_file_path : string) (s : fs)
    : result (list string * Vocab * fs) :=
  '(tokens, s') ← load_or_build description_tokens token_file_path s;
  let counter := Counter tokens in
  v ← Vocab_init counter [PAD; UNK; BOS; EOS; MASK] UNK;
  Ok (tokens, v, s').

End DescriptionVocab.

(** ** Specification-level notions *)

(** The state after the loop over the specials, and after both loops. *)
Definition specials_loop (specials : list string) : maps :=
  fold_left add_special (enumerate specials) (∅, []).

Definition final_maps (counter : list (string * Z)) (specials : list string) : maps :=
  fold_left add_token counter (specials_loop specials).

(** The distinct elements of [toks] that are not in [seen], each kept at
    its first occurrence. *)
Fixpoint first_seen (seen toks : list string) : list string :=
  match toks with
  | [] => []
  | t :: rest =>
      if decide (t ∈ seen) then first_seen seen rest
      else t :: first_seen (seen ++ [t]) rest
  end.

(** Both maps agree: every mapped token sits at its index in the backward
    map, and every listed token is mapped. *)
Definition consistent (st : maps) : Prop :=
  (∀ t i, st.1 !! t = Some i → 0 <= i ∧ st.2 !! Z.to_nat i = Some t) ∧
  (∀ t, t ∈ st.2 → is_Some (st.1 !! t)).

(** One token [<key>_<i>] for each [i] below [n], in increasing order. *)
Definition numbered (key : string) (n : nat) : list string :=
  map (fun i => key +:+ "_" +:+ str (Z.of_nat i)) (seq 0 n).

(** [ToIndex(ToToken(i)) == i]. *)
Definition round_trip_at (UNK : string) (v : Vocab) (i : Z) : Prop :=
  ∃ t, to_s UNK v i = Ok t ∧ to_i v t = i.

(** The i-th special has index i, in both directions. *)
Definition specials_first (UNK : string) (v : Vocab) : Prop :=
  ∀ (i : nat) s, specials v !! i = Some s →
    to_i v s = Z.of_nat i ∧ to_s UNK v (Z.of_nat i) = Ok s.

(** The indices assigned to tokens are exactly [0 .. Size()-1]. *)
Definition dense (v : Vocab) : Prop :=
  (∀ t i, forward_map v !! t = Some i → 0 <= i < Vocab_len v) ∧
  (∀ i, 0 <= i < Vocab_len v → ∃ t, forward_map v !! t = Some i).

(** Modelled from the spec: literals for the five special tokens PAD, UNK,
    BOS, EOS, MASK of [constants.py], which is not part of the sources; they
    only instantiate statements that hold for any five literals. *)
Definition PAD_TOKEN : string := "<pad>".
Definition UNK_TOKEN : string := "<unk>".
Definition BOS_TOKEN : string := "<bos>".
Definition EOS_TOKEN : string := "<eos>".
Definition MASK_TOKEN : string := "<mask>".
Definition default_specials : list string :=
  [PAD_TOKEN; UNK_TOKEN; BOS_TOKEN; EOS_TOKEN; MASK_TOKEN].

(** Whether a token contains the newline character. *)
Fixpoint has_newline (s : string) : bool :=
  match s with
  | EmptyString => false
  | String c s' => if decide (c = newline) then true else has_newline s'
  end.

(** What [decode] returns for the index of a token that is not in the
    vocabulary: [unk_token] when it is a special, else the token at index
    0, else (empty vocabulary) the UNK literal. *)
Definition fallback_token (UNK unk : string) (v : Vocab) : string :=
  if decide (unk ∈ specials v) then unk
  else match backward_map v with
       | t :: _ => t
       | [] => UNK
       end.

(** Whether a token contains a carriage return. *)
Fixpoint has_cr (s : string) : bool :=
  match s with
  | EmptyString => false
  | String c s' => if decide (c = carriage_return) then true else has_cr s'
  end.

(** A token that holds neither a newline nor a carriage return. *)
Definition one_line (t : string) : Prop :=
  has_newline t = false ∧ has_cr t = false.

#[global] Instance one_line_dec t : Decision (one_line t).
Proof. unfold one_line. apply _. Defined.

(** The file at [path] exists in the state [s] and holds [chars]. *)
Definition stored `{FileSystem fs} (s : fs) (path chars : string) : Prop :=
  path_exists s path = true ∧ read_chars s path = Ok chars.

(** A file system for the instances below: text files and directories by
    their paths, on a platform whose line separator is the newline.  A
    directory cannot be read or written as a file, and a file is created
    only in a directory that exists. *)
Inductive node : Type :=
| File (chars : string)
| Directory.

Abbreviation store := (gmap string node).

(** The path before the last slash, if there is a slash. *)
Fixpoint dirname (path : string) : option string :=
  match path with
  | EmptyString => None
  | String c rest =>
      match dirname rest with
      | Some d => Some (String c d)
      | None => if decide (c = "/"%char) then Some EmptyString else None
      end
  end.

Definition store_read (s : store) (path : string) : result string :=
  match s !! path with
  | Some (File chars) => Ok chars
  | Some Directory => Raise IsADirectoryError
  | None => Raise FileNotFoundError
  end.

Definition store_write (s : store) (path chars : string) : result store :=
  match s !! path with
  | Some Directory => Raise IsADirectoryError
  | _ =>
      match dirname path with
      | None | Some EmptyString => Ok (<[path := File chars]> s)
      | Some d =>
          match s !! d with
          | Some Directory => Ok (<[path := File chars]> s)
          | Some (File _) => Raise NotADirectoryError
          | None => Raise FileNotFoundError
          end
      end
  end.

#[global] Instance store_fs : FileSystem store := {|
  os_linesep := String newline EmptyString;
  os_linesep_cases := or_introl eq_refl;
  path_exists s path := bool_decide (is_Some (s !! path));
  read_chars := store_read;
  write_chars := store_write
|}.

(** A store with the directory of the token files and nothing else. *)
Definition tokens_dir : store := {[ "tokens" := Directory ]}.

(** A token with a carriage return in it. *)
Definition token_with_cr : string :=
  String "a" (String carriage_return (String "b" EmptyString)).

(** An instance of the constants of [constants.py] and of the table of
    instrument names, neither of which is part of the sources: programs are
    named by their number, every table of bins has two entries.  It only
    instantiates statements that hold for all constants. *)
Definition sample_RemiVocab_init : string -> store -> result (list string * Vocab * store) :=
  RemiVocab_init str 1 2 1 [(); ()] [(); ()] [(); ()]
    "Instrument" "TimeSig" "Pitch" "Velocity" "Duration" "Tempo" "Bar"
    "Position" "Chord" PAD_TOKEN UNK_TOKEN BOS_TOKEN EOS_TOKEN MASK_TOKEN.

Definition sample_remi_tokens : list string :=
  remi_tokens str 1 2 1 [(); ()] [(); ()] [(); ()]
    "Instrument" "TimeSig" "Pitch" "Velocity" "Duration" "Tempo" "Bar"
    "Position" "Chord".

Definition sample_DescriptionVocab_init : string -> store -> result (list string * Vocab * store) :=
  DescriptionVocab_init str 1 2 [(); ()] [(); ()] [(); ()] [(); ()]
    "TimeSig" "Instrument" "Chord" "Bar" "NoteDensity" "MeanVelocity"
    "MeanPitch" "MeanDuration"
    PAD_TOKEN UNK_TOKEN BOS_TOKEN EOS_TOKEN MASK_TOKEN.

Definition sample_description_tokens : list string :=
  description_tokens str 1 2 [(); ()] [(); ()] [(); ()] [(); ()]
    "TimeSig" "Instrument" "Chord" "Bar" "NoteDensity" "MeanVelocity"
    "MeanPitch" "MeanDuration".

(** * Properties *)

(** ** Python built-ins *)

Lemma len_app {A} (l k : list A) : len (l ++ k) = len l + len k.
Proof. unfold len. rewrite length_app. lia. Qed.

Lemma len_nonneg {A} (l : list A) : 0 <= len l.
Proof. unfold len. lia. Qed.

Lemma range_0_len {A} (l : list A) :
  range 0 (len l) = map Z.of_nat (seq 0 (length l)).
Proof.
  unfold range, len. rewrite Z.sub_0_r, Nat2Z.id.
  apply map_ext. intros k. lia.
Qed.

Lemma length_range a b : length (range a b) = Z.to_nat (b - a).
Proof. unfold range. now rewrite length_map, length_seq. Qed.

Lemma enumerate_snoc {A} (l : list A) x :
  enumerate (l ++ [x]) = enumerate l ++ [(len l, x)].
Proof.
  unfold enumerate. rewrite !range_0_len, length_app. simpl length.
  rewrite seq_app, map_app. simpl.
  rewrite zip_with_app by now rewrite length_map, length_seq.
  reflexivity.
Qed.

Lemma getitem_nonneg {A} (l : list A) (idx : Z) :
  0 <= idx < len l → getitem l idx = match l !! Z.to_nat idx with
                                     | Some a => Ok a
                                     | None => Raise IndexError
                                     end.
Proof.
  intros H. unfold getitem.
  destruct (Z.ltb_spec idx 0); [lia|].
  destruct (Z.ltb_spec idx 0); [lia|].
  destruct (Z.leb_spec (len l) idx); [lia|]. reflexivity.
Qed.

Lemma getitem_negative {A} (l : list A) (idx : Z) :
  - len l <= idx < 0 → getitem l idx = match l !! Z.to_nat (len l + idx) with
                                       | Some a => Ok a
                                       | None => Raise IndexError
                                       end.
Proof.
  intros H. unfold getitem.
  destruct (Z.ltb_spec idx 0); [|lia].
  destruct (Z.ltb_spec (idx + len l) 0); [lia|].
  destruct (Z.leb_spec (len l) (idx + len l)); [lia|].
  simpl. now rewrite (Z.add_comm idx).
Qed.

Lemma getitem_below {A} (l : list A) (idx : Z) :
  idx < - len l → getitem l idx = Raise IndexError.
Proof.
  intros H. unfold getitem. pose proof (len_nonneg l).
  destruct (Z.ltb_spec idx 0); [|lia].
  destruct (Z.ltb_spec (idx + len l) 0); [|lia]. reflexivity.
Qed.

Lemma lookup_len_lt {A} (l : list A) (i : Z) :
  0 <= i < len l → ∃ a, l !! Z.to_nat i = Some a.
Proof.
  intros H. apply lookup_lt_is_Some. unfold len in H. lia.
Qed.

(** ** The loops of [Vocab.__init__] *)

Lemma specials_loop_snoc sp x :
  specials_loop (sp ++ [x]) = add_special (specials_loop sp) (len sp, x).
Proof.
  unfold specials_loop. now rewrite enumerate_snoc, fold_left_app.
Qed.

Lemma specials_loop_backward sp : (specials_loop sp).2 = sp.
Proof.
  induction sp as [|x sp IH] using rev_ind; [reflexivity|].
  rewrite specials_loop_snoc. simpl. now rewrite IH.
Qed.

Lemma consistent_empty : consistent (∅, []).
Proof.
  split; simpl.
  - intros t i H. now rewrite lookup_empty in H.
  - intros t H. now apply elem_of_nil in H.
Qed.

(** Appending a token at the next free index keeps both maps in agreement. *)
Lemma consistent_push (st : maps) t :
  consistent st → consistent (<[t := len (st.2)]> (st.1), st.2 ++ [t]).
Proof.
  intros [Ha Hb]. split; simpl.
  - intros t' i. rewrite lookup_insert. case_decide as Heq.
    + intros [= <-]. subst t'. split; [apply len_nonneg|].
      unfold len. rewrite Nat2Z.id. now apply list_lookup_middle.
    + intros H. destruct (Ha _ _ H) as [H0 H1]. split; [done|].
      now apply lookup_app_l_Some.
  - intros t' H. rewrite lookup_insert. case_decide; [eauto|].
    apply elem_of_app in H as [H|H]; [now apply Hb|].
    apply list_elem_of_singleton in H. congruence.
Qed.

Lemma consistent_specials_loop sp : consistent (specials_loop sp).
Proof.
  induction sp as [|x sp IH] using rev_ind; [apply consistent_empty|].
  rewrite specials_loop_snoc. unfold add_special.
  rewrite <- (specials_loop_backward sp) at 1.
  now apply consistent_push.
Qed.

Lemma consistent_add_token st it : consistent st → consistent (add_token st it).
Proof.
  intros H. destruct it as [t c]. unfold add_token.
  destruct (st.1 !! t); [done|]. now apply consistent_push.
Qed.

Lemma consistent_counter_loop counter st :
  consistent st → consistent (fold_left add_token counter st).
Proof.
  revert st. induction counter as [|it counter IH]; intros st H; [done|].
  simpl. apply IH. now apply consistent_add_token.
Qed.

Lemma consistent_final counter sp : consistent (final_maps counter sp).
Proof. apply consistent_counter_loop, consistent_specials_loop. Qed.

(** In consistent maps a token is mapped exactly when it is listed. *)
Lemma consistent_mapped_iff st t :
  consistent st → is_Some (st.1 !! t) ↔ t ∈ st.2.
Proof.
  intros [Ha Hb]. split; [|apply Hb].
  intros [i H]. destruct (Ha _ _ H) as [_ H1].
  eapply list_elem_of_lookup_2; eauto.
Qed.

Lemma consistent_unmapped_iff st t :
  consistent st → st.1 !! t = None ↔ t ∉ st.2.
Proof.
  intros H. rewrite <- (consistent_mapped_iff st t H).
  rewrite eq_None_not_Some. tauto.
Qed.

Lemma consistent_index_lt st t i :
  consistent st → st.1 !! t = Some i → 0 <= i < len (st.2).
Proof.
  intros [Ha _] H. destruct (Ha _ _ H) as [H0 H1].
  apply lookup_lt_Some in H1. unfold len. lia.
Qed.

(** Without repeated entries in the backward map the two maps are inverse
    to each other. *)
Lemma consistent_NoDup_forward st i t :
  consistent st → NoDup (st.2) → st.2 !! i = Some t →
  st.1 !! t = Some (Z.of_nat i).
Proof.
  intros Hc Hnd Hi. destruct Hc as [Ha Hb].
  destruct (Hb t) as [j Hj]; [eapply list_elem_of_lookup_2; eauto|].
  destruct (Ha _ _ Hj) as [H0 H1].
  rewrite Hj. f_equal.
  pose proof (NoDup_lookup _ _ _ _ Hnd Hi H1). lia.
Qed.

Lemma counter_loop_stable counter st t i :
  st.1 !! t = Some i → (fold_left add_token counter st).1 !! t = Some i.
Proof.
  revert st. induction counter as [|[t' c] counter IH]; intros st H; [done|].
  simpl. apply IH. unfold add_token.
  destruct (st.1 !! t') eqn:E; [done|]. simpl.
  rewrite lookup_insert_ne; [done|]. congruence.
Qed.

Lemma counter_loop_backward counter st :
  consistent st →
  (fold_left add_token counter st).2 = st.2 ++ first_seen (st.2) (counter.*1).
Proof.
  revert st. induction counter as [|[t c] counter IH]; intros st Hc.
  - simpl. now rewrite app_nil_r.
  - cbn [fold_left].
    rewrite IH by exact (consistent_add_token st (t, c) Hc).
    simpl. destruct (st.1 !! t) eqn:E.
    + rewrite decide_True; [done|].
      apply (consistent_mapped_iff st t Hc). eauto.
    + rewrite decide_False by now apply (consistent_unmapped_iff st t Hc).
      simpl. now rewrite <- app_assoc.
Qed.

(** ** First-seen order *)

Lemma elem_of_first_seen seen toks t :
  t ∈ first_seen seen toks ↔ t ∈ toks ∧ t ∉ seen.
Proof.
  revert seen. induction toks as [|t' toks IH]; intros seen; simpl.
  - rewrite !elem_of_nil. tauto.
  - case_decide as Hin.
    + rewrite IH, elem_of_cons. split; [tauto|].
      intros [[-> | H] Hn]; tauto.
    + rewrite !elem_of_cons, IH, elem_of_app, list_elem_of_singleton.
      split.
      * intros [-> | [H1 H2]]; tauto.
      * intros [[-> | H] Hn]; [tauto|].
        destruct (decide (t = t')); tauto.
Qed.

Lemma NoDup_first_seen seen toks : NoDup (first_seen seen toks).
Proof.
  revert seen. induction toks as [|t toks IH]; intros seen; simpl.
  - constructor.
  - case_decide; [apply IH|]. constructor; [|apply IH].
    rewrite elem_of_first_seen, elem_of_app, list_elem_of_singleton. tauto.
Qed.

Lemma NoDup_app_first_seen seen toks :
  NoDup seen → NoDup (seen ++ first_seen seen toks).
Proof.
  intros H. apply NoDup_app. split; [done|]. split; [|apply NoDup_first_seen].
  intros t Ht. rewrite elem_of_first_seen. tauto.
Qed.

Lemma first_seen_first_seen s s' toks :
  (∀ t, t ∈ s' → t ∈ s) →
  first_seen s (first_seen s' toks) = first_seen s toks.
Proof.
  revert s s'. induction toks as [|t toks IH]; intros s s' Hsub; [done|].
  simpl. destruct (decide (t ∈ s')) as [Hs'|Hs'].
  - rewrite decide_True by auto. now apply IH.
  - simpl. assert (Hsub1 : ∀ x, x ∈ s' ++ [t] → x ∈ s ++ [t]).
    { intros x. rewrite !elem_of_app. intros [?|?]; auto. }
    destruct (decide (t ∈ s)) as [Hs|Hs].
    + apply IH. intros x. rewrite elem_of_app, list_elem_of_singleton.
      intros [? | ->]; auto.
    + f_equal. now apply IH.
Qed.

(** ** [Counter] *)

Lemma count_elem_keys k d :
  (count_elem k d).*1 = if decide (k ∈ d.*1) then d.*1 else d.*1 ++ [k].
Proof.
  induction d as [|[k' n] d IH]; cbn [count_elem].
  - rewrite decide_False; [done|]. apply not_elem_of_nil.
  - destruct (decide (k = k')) as [-> | Hne].
    + rewrite decide_True; [done|]. apply list_elem_of_here.
    + rewrite fmap_cons, IH. destruct (decide (k ∈ d.*1)) as [Hin|Hin].
      * rewrite decide_True; [done|]. now apply list_elem_of_further.
      * rewrite decide_False; [done|].
        rewrite fmap_cons, elem_of_cons. simpl. tauto.
Qed.

Lemma Counter_fold_keys toks d :
  (fold_left (fun d k => count_elem k d) toks d).*1 =
  d.*1 ++ first_seen (d.*1) toks.
Proof.
  revert d. induction toks as [|t toks IH]; intros d; simpl.
  - now rewrite app_nil_r.
  - rewrite IH, count_elem_keys. case_decide; [done|].
    now rewrite <- app_assoc.
Qed.

Lemma Counter_keys toks : (Counter toks).*1 = first_seen [] toks.
Proof. unfold Counter. now rewrite Counter_fold_keys. Qed.

Lemma NoDup_Counter_keys toks : NoDup ((Counter toks).*1).
Proof. rewrite Counter_keys. apply NoDup_first_seen. Qed.

(** ** The constructor *)

Lemma final_maps_backward counter sp :
  (final_maps counter sp).2 = sp ++ first_seen sp (counter.*1).
Proof.
  unfold final_maps.
  rewrite counter_loop_backward by apply consistent_specials_loop.
  now rewrite specials_loop_backward.
Qed.

Lemma final_maps_backward_Counter toks sp :
  (final_maps (Counter toks) sp).2 = sp ++ first_seen sp toks.
Proof.
  rewrite final_maps_backward, Counter_keys.
  rewrite first_seen_first_seen; [done|].
  intros t Ht. now apply elem_of_nil in Ht.
Qed.

Lemma NoDup_final_maps counter sp :
  NoDup sp → NoDup ((final_maps counter sp).2).
Proof.
  intros H. rewrite final_maps_backward. now apply NoDup_app_first_seen.
Qed.

(** The constructor never raises: the only subscript of the dictionary is
    guarded by the membership test of the line before. *)
Lemma Vocab_init_ok counter sp unk :
  ∃ d, Vocab_init counter sp unk =
         Ok (mkVocab ((final_maps counter sp).1) ((final_maps counter sp).2) d sp) ∧
       (unk ∈ sp → (specials_loop sp).1 !! unk = Some d) ∧
       (unk ∉ sp → d = 0).
Proof.
  unfold Vocab_init. fold (specials_loop sp). fold (final_maps counter sp).
  destruct (decide (unk ∈ sp)) as [Hin|Hin].
  - pose proof (consistent_specials_loop sp) as Hc.
    destruct (proj2 Hc unk) as [d Hd].
    { now rewrite specials_loop_backward. }
    exists d. unfold dict_getitem. rewrite Hd. simpl. tauto.
  - exists 0. simpl. tauto.
Qed.

(** ** Lookups *)

Lemma to_i_mapped v t i : forward_map v !! t = Some i → to_i v t = i.
Proof. intros H. unfold to_i, dict_get. now rewrite H. Qed.

Lemma to_i_unmapped v t : forward_map v !! t = None → to_i v t = default_token v.
Proof. intros H. unfold to_i, dict_get. now rewrite H. Qed.

Lemma to_s_oversized UNK v idx : Vocab_len v <= idx → to_s UNK v idx = Ok UNK.
Proof.
  intros H. unfold to_s. fold (Vocab_len v).
  destruct (Z.geb_spec idx (Vocab_len v)); [done|lia].
Qed.

Lemma to_s_in_range UNK v (i : nat) t :
  backward_map v !! i = Some t → to_s UNK v (Z.of_nat i) = Ok t.
Proof.
  intros H. pose proof (lookup_lt_Some _ _ _ H) as Hlt.
  unfold to_s. destruct (Z.geb_spec (Z.of_nat i) (len (backward_map v))) as [Hge|_].
  { unfold len in Hge. lia. }
  rewrite getitem_nonneg by (unfold len; lia).
  now rewrite Nat2Z.id, H.
Qed.

Lemma to_s_negative UNK v idx t :
  - Vocab_len v <= idx < 0 →
  backward_map v !! Z.to_nat (Vocab_len v + idx) = Some t →
  to_s UNK v idx = Ok t.
Proof.
  intros Hr H. unfold to_s. fold (Vocab_len v).
  destruct (Z.geb_spec idx (Vocab_len v)) as [Hge|_]; [lia|].
  rewrite getitem_negative by done. fold (Vocab_len v). now rewrite H.
Qed.

Lemma to_s_below UNK v idx :
  idx < - Vocab_len v → to_s UNK v idx = Raise IndexError.
Proof.
  intros H. unfold to_s. fold (Vocab_len v).
  pose proof (len_nonneg (backward_map v)) as Hn. fold (Vocab_len v) in Hn.
  destruct (Z.geb_spec idx (Vocab_len v)) as [Hge|_]; [lia|].
  now apply getitem_below.
Qed.

(** A token of the part appended after [a] is mapped to its offset. *)
Lemma consistent_forward_app st a b (i : nat) t :
  consistent st → st.2 = a ++ b → t ∉ a → NoDup b → b !! i = Some t →
  st.1 !! t = Some (len a + Z.of_nat i).
Proof.
  intros Hc Heq Hna Hnd Hi. destruct Hc as [Ha Hb].
  destruct (Hb t) as [j Hj].
  { rewrite Heq, elem_of_app. right. eapply list_elem_of_lookup_2; eauto. }
  destruct (Ha _ _ Hj) as [H0 H1]. rewrite Hj. f_equal.
  rewrite Heq, lookup_app in H1.
  destruct (a !! Z.to_nat j) eqn:E.
  - injection H1 as ->. exfalso. apply Hna. eapply list_elem_of_lookup_2; eauto.
  - apply lookup_ge_None in E.
    pose proof (NoDup_lookup _ _ _ _ Hnd Hi H1). unfold len. lia.
Qed.

Lemma first_seen_app s a b :
  first_seen s (a ++ b) = first_seen s a ++ first_seen (s ++ first_seen s a) b.
Proof.
  revert s. induction a as [|t a IH]; intros s; simpl.
  - now rewrite app_nil_r.
  - case_decide; [apply IH|]. simpl. rewrite IH. now rewrite <- app_assoc.
Qed.

(** The position at which a token is appended is fixed by its first
    occurrence. *)
Lemma first_seen_first_occurrence s pre t post :
  t ∉ pre → t ∉ s →
  first_seen s (pre ++ t :: post) !! length (first_seen s pre) = Some t.
Proof.
  intros Hpre Hs. rewrite first_seen_app. simpl.
  rewrite decide_False.
  - now apply list_lookup_middle.
  - rewrite elem_of_app, elem_of_first_seen. tauto.
Qed.

(** ** Round trip on valid indices *)

(** C2, as amended: for a Vocab built from specials without repeated
    entries, [ToIndex(ToToken(i)) == i] for every [i] with
    [0 <= i < Size()]. *)
Theorem to_i_to_s_round_trip counter sp unk UNK :
  NoDup sp →
  ∃ v, Vocab_init counter sp unk = Ok v ∧
       ∀ i, 0 <= i < Vocab_len v → round_trip_at UNK v i.
Proof.
  intros Hnd. destruct (Vocab_init_ok counter sp unk) as (d & Hv & _).
  eexists. split; [exact Hv|]. intros i Hi.
  unfold Vocab_len in Hi. simpl in Hi.
  destruct (lookup_len_lt _ _ Hi) as [t Ht]. exists t. split.
  - rewrite <- (Z2Nat.id i) by lia. now apply to_s_in_range.
  - apply to_i_mapped. simpl.
    rewrite (consistent_NoDup_forward _ _ _ (consistent_final counter sp)
               (NoDup_final_maps counter sp Hnd) Ht).
    f_equal. lia.
Qed.

Lemma to_i_to_s_round_trip_witness :
  NoDup default_specials ∧
  ∃ v, Vocab_init (Counter ["Pitch_60"; "Pitch_62"; "Pitch_60"])
         default_specials UNK_TOKEN = Ok v ∧
       ∀ i, 0 <= i < Vocab_len v → round_trip_at UNK_TOKEN v i.
Proof.
  assert (H : NoDup default_specials)
    by (apply (bool_decide_unpack _); vm_compute; exact I).
  split; [exact H|]. exact (to_i_to_s_round_trip _ _ _ _ H).
Defined.

(** C2, as stated, fails when a special is listed twice: the later entry
    overwrites the index of the earlier one in the forward map. *)
Lemma round_trip_fails_on_repeated_special :
  ∃ v, Vocab_init (Counter []) [PAD_TOKEN; PAD_TOKEN] UNK_TOKEN = Ok v ∧
       0 <= 0 < Vocab_len v ∧
       to_s UNK_TOKEN v 0 = Ok PAD_TOKEN ∧
       to_i v PAD_TOKEN = 1 ∧
       ¬ round_trip_at UNK_TOKEN v 0.
Proof.
  eexists. split; [vm_compute; reflexivity|].
  split; [split; [done | vm_compute; reflexivity]|].
  split; [vm_compute; reflexivity|].
  split; [vm_compute; reflexivity|].
  intros (t & Hs & Hi). vm_compute in Hs. injection Hs as <-.
  vm_compute in Hi. discriminate.
Qed.

(** ** Specials first, dense indices *)

(** Whatever the specials, the backward map lists them first and every
    index of the forward map points into the backward map. *)
Lemma specials_listed_first counter sp unk UNK :
  ∃ v, Vocab_init counter sp unk = Ok v ∧
       (∀ (i : nat) s, sp !! i = Some s → to_s UNK v (Z.of_nat i) = Ok s) ∧
       (∀ t i, forward_map v !! t = Some i →
               0 <= i < Vocab_len v ∧ to_s UNK v i = Ok t).
Proof.
  destruct (Vocab_init_ok counter sp unk) as (d & Hv & _).
  pose proof (consistent_final counter sp) as Hc.
  eexists. split; [exact Hv|]. split.
  - intros i s Hi. apply to_s_in_range. simpl.
    rewrite final_maps_backward. now apply lookup_app_l_Some.
  - intros t i Hi. simpl in Hi.
    pose proof (consistent_index_lt _ _ _ Hc Hi) as Hlt.
    split; [exact Hlt|].
    destruct Hc as [Ha _]. destruct (Ha _ _ Hi) as [_ Hb].
    rewrite <- (Z2Nat.id i) by lia. now apply to_s_in_range.
Qed.

(** C5, as amended: for a Vocab built from any token occurrences and from
    specials without repeated entries, the i-th special has index i, and
    the indices assigned to tokens are exactly [0 .. Size()-1]. *)
Theorem specials_first_and_dense counter sp unk UNK :
  NoDup sp →
  ∃ v, Vocab_init counter sp unk = Ok v ∧ specials_first UNK v ∧ dense v.
Proof.
  intros Hnd. destruct (Vocab_init_ok counter sp unk) as (d & Hv & _).
  pose proof (consistent_final counter sp) as Hc.
  pose proof (NoDup_final_maps counter sp Hnd) as Hnd'.
  eexists. split; [exact Hv|]. split.
  - intros i s Hi. simpl in Hi.
    assert (Hb : (final_maps counter sp).2 !! i = Some s).
    { rewrite final_maps_backward. now apply lookup_app_l_Some. }
    split.
    + apply to_i_mapped. simpl. now apply consistent_NoDup_forward.
    + now apply to_s_in_range.
  - split.
    + intros t i Hi. simpl in Hi. unfold Vocab_len. simpl.
      now apply (consistent_index_lt _ t).
    + intros i Hi. unfold Vocab_len in Hi. simpl in Hi.
      destruct (lookup_len_lt _ _ Hi) as [t Ht]. exists t. simpl.
      rewrite (consistent_NoDup_forward _ _ _ Hc Hnd' Ht). f_equal. lia.
Qed.

Lemma specials_first_and_dense_witness :
  NoDup default_specials ∧
  ∃ v, Vocab_init (Counter ["Pitch_60"; "Pitch_62"; "Pitch_60"])
         default_specials UNK_TOKEN = Ok v ∧
       specials_first UNK_TOKEN v ∧ dense v.
Proof.
  assert (H : NoDup default_specials)
    by (apply (bool_decide_unpack _); vm_compute; exact I).
  split; [exact H|]. exact (specials_first_and_dense _ _ _ _ H).
Defined.

(** C5, as stated for any list of specials, fails when a special is listed
    twice: the first entry loses its index, which is then assigned to no
    token. *)
Lemma specials_first_fails_on_repeated_special :
  ∃ v, Vocab_init (Counter []) [PAD_TOKEN; PAD_TOKEN] UNK_TOKEN = Ok v ∧
       ¬ specials_first UNK_TOKEN v ∧ ¬ dense v.
Proof.
  destruct (Vocab_init_ok (Counter []) [PAD_TOKEN; PAD_TOKEN] UNK_TOKEN)
    as (d & Hv & _).
  eexists. split; [exact Hv|]. split.
  - intros H. destruct (H 0%nat PAD_TOKEN eq_refl) as [Hi _].
    vm_compute in Hi. discriminate.
  - intros [_ H]. destruct (H 0) as [t Ht].
    { split; [done | vm_compute; reflexivity]. }
    simpl in Ht.
    destruct (consistent_final (Counter []) [PAD_TOKEN; PAD_TOKEN]) as [Ha _].
    destruct (Ha t 0 Ht) as [_ Hb]. vm_compute in Hb. injection Hb as <-.
    vm_compute in Ht. discriminate.
Qed.

(** ** Unknown tokens *)

(** C4: for every constructed Vocab, [ToIndex] of a token that is not in
    the vocabulary is the default index, and cannot fail; the default index
    is the index of the UNK token when it is among the specials, and 0
    otherwise. *)
Theorem to_i_unknown_is_default counter sp unk :
  ∃ v, Vocab_init counter sp unk = Ok v ∧
       (∀ t, t ∉ backward_map v → to_i v t = default_token v) ∧
       (unk ∈ sp →
          to_i v unk = default_token v ∧
          0 <= default_token v < len sp ∧
          sp !! Z.to_nat (default_token v) = Some unk) ∧
       (unk ∉ sp → default_token v = 0).
Proof.
  destruct (Vocab_init_ok counter sp unk) as (d & Hv & Hin & Hout).
  pose proof (consistent_final counter sp) as Hc.
  eexists. split; [exact Hv|]. simpl. split; [|split; [|exact Hout]].
  - intros t Ht. apply to_i_unmapped. simpl.
    now apply (consistent_unmapped_iff _ t Hc).
  - intros Hu. specialize (Hin Hu).
    pose proof (consistent_specials_loop sp) as Hcs.
    pose proof (consistent_index_lt _ _ _ Hcs Hin) as Hlt.
    destruct Hcs as [Ha _]. destruct (Ha _ _ Hin) as [_ Hb].
    rewrite specials_loop_backward in Hlt, Hb.
    split; [|done]. apply to_i_mapped. simpl.
    now apply counter_loop_stable.
Qed.

(** ** Negative and oversized indices *)

(** C10: for every constructed Vocab, [ToToken(idx)] with
    [-Size() <= idx < 0] is the token at position [Size()+idx], so that
    [ToToken(-1)] is the last token, and [ToToken(idx)] with
    [idx < -Size()] raises [IndexError]. *)
Theorem to_s_negative_index counter sp unk UNK :
  ∃ v, Vocab_init counter sp unk = Ok v ∧
       (∀ idx, - Vocab_len v <= idx < 0 →
          ∃ t, backward_map v !! Z.to_nat (Vocab_len v + idx) = Some t ∧
               to_s UNK v idx = Ok t) ∧
       (∀ t, last (backward_map v) = Some t → to_s UNK v (-1) = Ok t) ∧
       (∀ idx, idx < - Vocab_len v → to_s UNK v idx = Raise IndexError).
Proof.
  destruct (Vocab_init_ok counter sp unk) as (d & Hv & _).
  eexists. split; [exact Hv|]. split; [|split].
  - intros idx Hidx.
    destruct (lookup_len_lt (final_maps counter sp).2
                (len (final_maps counter sp).2 + idx)) as [t Ht].
    { unfold Vocab_len in Hidx. simpl in Hidx. lia. }
    exists t. split; [exact Ht|]. now apply to_s_negative.
  - intros t Ht. rewrite last_lookup in Ht.
    pose proof (lookup_lt_Some _ _ _ Ht) as Hlt.
    apply to_s_negative.
    + unfold Vocab_len, len. lia.
    + rewrite <- Ht. f_equal. unfold Vocab_len, len. lia.
  - intros idx Hidx. now apply to_s_below.
Qed.

(** C1 fails on the code at negative indices.  An oversized index does
    yield the UNK literal, for every constructed Vocab; but on the Vocab of
    the five default specials index -1 yields the last token instead of
    the UNK literal, and index -6 raises [IndexError]. *)
Theorem to_s_negative_index_is_not_UNK :
  (∀ counter sp unk UNK,
     ∃ v, Vocab_init counter sp unk = Ok v ∧
          ∀ idx, Vocab_len v <= idx → to_s UNK v idx = Ok UNK) ∧
  (∃ v, Vocab_init (Counter []) default_specials UNK_TOKEN = Ok v ∧
        Vocab_len v = 5 ∧
        to_s UNK_TOKEN v 5 = Ok UNK_TOKEN ∧
        to_s UNK_TOKEN v (-1) = Ok MASK_TOKEN ∧
        to_s UNK_TOKEN v (-1) ≠ Ok UNK_TOKEN ∧
        to_s UNK_TOKEN v (-6) = Raise IndexError).
Proof.
  split.
  - intros counter sp unk UNK.
    destruct (Vocab_init_ok counter sp unk) as (d & Hv & _).
    eexists. split; [exact Hv|]. intros idx Hidx. now apply to_s_oversized.
  - eexists. split; [vm_compute; reflexivity|].
    repeat split; try (vm_compute; reflexivity).
    vm_compute. discriminate.
Qed.

(** ** Duplicate occurrences *)

Lemma final_maps_forward_new toks sp pre t post :
  toks = pre ++ t :: post → t ∉ pre → t ∉ sp →
  (final_maps (Counter toks) sp).1 !! t =
  Some (len sp + len (first_seen sp pre)).
Proof.
  intros -> Hpre Hsp.
  apply (consistent_forward_app _ sp (first_seen sp (pre ++ t :: post))).
  - apply consistent_final.
  - apply final_maps_backward_Counter.
  - exact Hsp.
  - apply NoDup_first_seen.
  - now apply first_seen_first_occurrence.
Qed.

(** What the constructor makes of a sequence of token occurrences. *)
Lemma Vocab_init_Counter toks sp unk :
  ∃ v, Vocab_init (Counter toks) sp unk = Ok v ∧
       backward_map v = sp ++ first_seen sp toks ∧
       NoDup (first_seen sp toks) ∧
       (∀ t, t ∈ first_seen sp toks ↔ t ∈ toks ∧ t ∉ sp) ∧
       (∀ pre t post, toks = pre ++ t :: post → t ∉ pre → t ∉ sp →
          to_i v t = len sp + len (first_seen sp pre)).
Proof.
  destruct (Vocab_init_ok (Counter toks) sp unk) as (d & Hv & _).
  eexists. split; [exact Hv|]. simpl.
  split; [apply final_maps_backward_Counter|].
  split; [apply NoDup_first_seen|].
  split; [intros t; apply elem_of_first_seen|].
  intros pre t post Heq Hpre Hsp. apply to_i_mapped. simpl.
  now apply (final_maps_forward_new toks sp pre t post).
Qed.

(** C7: from the five specials and the occurrences Pitch_60, Pitch_62,
    Pitch_60 the constructor builds a Vocab of size 7 in which Pitch_60 has
    index 5, Pitch_62 index 6 and the unknown Pitch_61 the index 1 of UNK.
    In general the constructor never fails, the tokens appended after the
    specials are the distinct tokens of the occurrence sequence that are
    not specials, without repetition, and each gets the index that was
    free at its first occurrence. *)
Theorem scenario_A_duplicates_collapsed (PAD UNK BOS EOS MASK : string) :
  NoDup [PAD; UNK; BOS; EOS; MASK] →
  (∀ s, s ∈ [PAD; UNK; BOS; EOS; MASK] →
        s ∉ ["Pitch_60"; "Pitch_61"; "Pitch_62"]) →
  (∃ v, Vocab_init (Counter ["Pitch_60"; "Pitch_62"; "Pitch_60"])
          [PAD; UNK; BOS; EOS; MASK] UNK = Ok v ∧
        Vocab_len v = 7 ∧
        to_i v "Pitch_60" = 5 ∧
        to_i v "Pitch_62" = 6 ∧
        to_i v "Pitch_61" = 1) ∧
  (∀ toks sp unk,
     ∃ v, Vocab_init (Counter toks) sp unk = Ok v ∧
          backward_map v = sp ++ first_seen sp toks ∧
          NoDup (first_seen sp toks) ∧
          (∀ t, t ∈ first_seen sp toks ↔ t ∈ toks ∧ t ∉ sp) ∧
          (∀ pre t post, toks = pre ++ t :: post → t ∉ pre → t ∉ sp →
             to_i v t = len sp + len (first_seen sp pre))).
Proof.
  intros Hnd Hdis. split; [|apply Vocab_init_Counter].
  set (sp := [PAD; UNK; BOS; EOS; MASK]) in *.
  set (toks := ["Pitch_60"; "Pitch_62"; "Pitch_60"]).
  assert (H60 : "Pitch_60" ∉ sp).
  { intros H. apply (Hdis _ H). apply list_elem_of_here. }
  assert (H61 : "Pitch_61" ∉ sp).
  { intros H. apply (Hdis _ H). apply list_elem_of_further, list_elem_of_here. }
  assert (H62 : "Pitch_62" ∉ sp).
  { intros H. apply (Hdis _ H).
    do 2 apply list_elem_of_further. apply list_elem_of_here. }
  assert (Hnew : first_seen sp toks = ["Pitch_60"; "Pitch_62"]).
  { unfold toks. simpl.
    rewrite (decide_False (P := "Pitch_60" ∈ sp)) by exact H60.
    rewrite (decide_False (P := "Pitch_62" ∈ sp ++ ["Pitch_60"])).
    2:{ rewrite elem_of_app, list_elem_of_singleton. intros [?|?]; [tauto|done]. }
    rewrite (decide_True (P := "Pitch_60" ∈ (sp ++ ["Pitch_60"]) ++ ["Pitch_62"])).
    2:{ rewrite !elem_of_app, !list_elem_of_singleton. tauto. }
    reflexivity. }
  destruct (Vocab_init_ok (Counter toks) sp UNK) as (d & Hv & Hd & _).
  assert (Hd1 : d = 1).
  { assert (Hin : UNK ∈ sp) by apply list_elem_of_further, list_elem_of_here.
    specialize (Hd Hin).
    assert (H1 : (specials_loop sp).1 !! UNK = Some (Z.of_nat 1)).
    { apply consistent_NoDup_forward.
      - apply consistent_specials_loop.
      - now rewrite specials_loop_backward.
      - now rewrite specials_loop_backward. }
    rewrite H1 in Hd. now injection Hd as <-. }
  subst d. eexists. split; [exact Hv|].
  split; [|split; [|split]].
  - unfold Vocab_len. simpl.
    now rewrite final_maps_backward_Counter, Hnew.
  - apply to_i_mapped. simpl.
    now rewrite (final_maps_forward_new toks sp [] "Pitch_60" ["Pitch_62"; "Pitch_60"])
      by (done || apply not_elem_of_nil).
  - apply to_i_mapped. simpl.
    rewrite (final_maps_forward_new toks sp ["Pitch_60"] "Pitch_62" ["Pitch_60"]).
    + simpl. now rewrite (decide_False (P := "Pitch_60" ∈ sp)) by exact H60.
    + reflexivity.
    + rewrite list_elem_of_singleton. done.
    + exact H62.
  - rewrite to_i_unmapped; [reflexivity|]. simpl.
    apply (consistent_unmapped_iff _ _ (consistent_final (Counter toks) sp)).
    rewrite final_maps_backward_Counter, Hnew.
    rewrite elem_of_app, !elem_of_cons, elem_of_nil.
    intros [?|[?|[?|?]]]; [tauto|done|done|done].
Qed.

Lemma scenario_A_duplicates_collapsed_witness :
  NoDup default_specials ∧
  (∀ s, s ∈ default_specials → s ∉ ["Pitch_60"; "Pitch_61"; "Pitch_62"]) ∧
  ∃ v, Vocab_init (Counter ["Pitch_60"; "Pitch_62"; "Pitch_60"])
         default_specials UNK_TOKEN = Ok v ∧
       Vocab_len v = 7 ∧
       to_i v "Pitch_60" = 5 ∧
       to_i v "Pitch_62" = 6 ∧
       to_i v "Pitch_61" = 1.
Proof.
  assert (H1 : NoDup default_specials)
    by (apply (bool_decide_unpack _); vm_compute; exact I).
  assert (H2 : ∀ s, s ∈ default_specials →
                    s ∉ ["Pitch_60"; "Pitch_61"; "Pitch_62"])
    by (apply Forall_forall, (bool_decide_unpack _); vm_compute; exact I).
  split; [exact H1|]. split; [exact H2|].
  exact (proj1 (scenario_A_duplicates_collapsed _ _ _ _ _ H1 H2)).
Defined.

(** ** Token enumerations *)

(** Each denominator [q] contributes [MAX_BAR_LENGTH * q] numerators. *)
Lemma length_time_signature_tokens M key :
  length (get_time_signature_tokens M key) =
  (Z.to_nat (M * 2) + Z.to_nat (M * 4) + Z.to_nat (M * 8) + Z.to_nat (M * 16))%nat.
Proof.
  unfold get_time_signature_tokens. rewrite length_map. simpl.
  rewrite !length_app, !length_map, !length_range. simpl length.
  replace (M * 2 + 1 - 1) with (M * 2) by lia.
  replace (M * 4 + 1 - 1) with (M * 4) by lia.
  replace (M * 8 + 1 - 1) with (M * 8) by lia.
  replace (M * 16 + 1 - 1) with (M * 16) by lia.
  lia.
Qed.

(** C3, as amended: with [MAX_BAR_LENGTH = 1] the time signatures are the
    [2 + 4 + 8 + 16 = 30] tokens [<key>_<p>/<q>] for [q] in 2, 4, 8, 16
    (outer) and [p] from 1 to [q] (inner), in that order. *)
Theorem time_signature_tokens_bar_length_1 :
  (∀ key, get_time_signature_tokens 1 key =
     map (keyed key)
       ["1/2"; "2/2";
        "1/4"; "2/4"; "3/4"; "4/4";
        "1/8"; "2/8"; "3/8"; "4/8"; "5/8"; "6/8"; "7/8"; "8/8";
        "1/16"; "2/16"; "3/16"; "4/16"; "5/16"; "6/16"; "7/16"; "8/16";
        "9/16"; "10/16"; "11/16"; "12/16"; "13/16"; "14/16"; "15/16"; "16/16"]) ∧
  (∀ key, length (get_time_signature_tokens 1 key) = 30%nat) ∧
  get_time_signature_tokens 1 "TimeSig" =
    ["TimeSig_1/2"; "TimeSig_2/2";
     "TimeSig_1/4"; "TimeSig_2/4"; "TimeSig_3/4"; "TimeSig_4/4";
     "TimeSig_1/8"; "TimeSig_2/8"; "TimeSig_3/8"; "TimeSig_4/8";
     "TimeSig_5/8"; "TimeSig_6/8"; "TimeSig_7/8"; "TimeSig_8/8";
     "TimeSig_1/16"; "TimeSig_2/16"; "TimeSig_3/16"; "TimeSig_4/16";
     "TimeSig_5/16"; "TimeSig_6/16"; "TimeSig_7/16"; "TimeSig_8/16";
     "TimeSig_9/16"; "TimeSig_10/16"; "TimeSig_11/16"; "TimeSig_12/16";
     "TimeSig_13/16"; "TimeSig_14/16"; "TimeSig_15/16"; "TimeSig_16/16"].
Proof.
  split; [|split].
  - intros key. reflexivity.
  - intros key. reflexivity.
  - vm_compute. reflexivity.
Qed.

(** C3, as stated, fails: with [MAX_BAR_LENGTH = 1] the numerators of
    denominator [q] run from 1 to [q], so there are 30 tokens, the second
    of which is [TimeSig_2/2]. *)
Lemma time_signature_tokens_not_four :
  get_time_signature_tokens 1 "TimeSig" ≠
    ["TimeSig_1/2"; "TimeSig_1/4"; "TimeSig_1/8"; "TimeSig_1/16"] ∧
  length (get_time_signature_tokens 1 "TimeSig") ≠ 4%nat ∧
  get_time_signature_tokens 1 "TimeSig" !! 1%nat = Some "TimeSig_2/2".
Proof.
  split; [|split].
  - vm_compute. discriminate.
  - vm_compute. discriminate.
  - vm_compute. reflexivity.
Qed.

(** C6: with the default eight qualities the chord enumeration is, for
    each of the twelve roots (outer) and each quality (inner), the token
    [<key>_<root>:<quality>], followed by the sentinel [<key>_N:N]: 97
    tokens, from [Chord_C:maj] to [Chord_N:N]. *)
Theorem chord_tokens_default :
  (∀ key, get_chord_tokens key default_qualities =
     flat_map
       (fun root =>
          map (fun quality => key +:+ "_" +:+ root +:+ ":" +:+ quality)
              ["maj"; "min"; "dim"; "aug"; "dom7"; "maj7"; "min7"; "None"])
       ["C"; "C#"; "D"; "D#"; "E"; "F"; "F#"; "G"; "G#"; "A"; "A#"; "B"]
     ++ [key +:+ "_" +:+ "N:N"]) ∧
  (∀ key, length (get_chord_tokens key default_qualities) = 97%nat) ∧
  head (get_chord_tokens "Chord" default_qualities) = Some "Chord_C:maj" ∧
  last (get_chord_tokens "Chord" default_qualities) = Some "Chord_N:N".
Proof.
  split; [|split; [|split]].
  - intros key. reflexivity.
  - intros key. reflexivity.
  - vm_compute. reflexivity.
  - vm_compute. reflexivity.
Qed.

Lemma range_0 b : range 0 b = map Z.of_nat (seq 0 (Z.to_nat b)).
Proof.
  unfold range. rewrite Z.sub_0_r. apply map_ext. intros k. lia.
Qed.

Lemma map_range_0 {A} (f : Z -> A) b :
  map f (range 0 b) = map (fun i => f (Z.of_nat i)) (seq 0 (Z.to_nat b)).
Proof. now rewrite range_0, map_map. Qed.

Section MidiTokens.

Variable program_to_instrument_name : Z -> string.
Variables MAX_BAR_LENGTH MAX_N_BARS DEFAULT_POS_PER_QUARTER : Z.
Context {bin : Type}.
Variables DEFAULT_VELOCITY_BINS DEFAULT_DURATION_BINS DEFAULT_TEMPO_BINS : list bin.

(** C8: the MIDI event vocabulary is the concatenation, in this order,
    of the time-signature tokens, one tempo token per tempo bin, the 128
    instrument tokens of the programs 0..127 followed by the drum
    instrument (129), the 128 pitch tokens followed by the 128 drum-pitch
    tokens, one velocity token per velocity bin, one duration token per
    duration bin, one bar token per bar below [MAX_N_BARS], and
    [MAX_BAR_LENGTH * 4 * DEFAULT_POS_PER_QUARTER] position tokens. *)
Theorem midi_tokens_layout
    (instrument_key time_signature_key pitch_key velocity_key
     duration_key tempo_key bar_key position_key : string) :
  ∃ time_sig tempo instrument pitch velocity duration bar position,
    get_midi_tokens program_to_instrument_name
      MAX_BAR_LENGTH MAX_N_BARS DEFAULT_POS_PER_QUARTER
      DEFAULT_VELOCITY_BINS DEFAULT_DURATION_BINS DEFAULT_TEMPO_BINS
      instrument_key time_signature_key pitch_key velocity_key
      duration_key tempo_key bar_key position_key =
    time_sig ++ tempo ++ instrument ++ pitch ++ velocity ++ duration ++
    bar ++ position ∧
    time_sig = get_time_signature_tokens MAX_BAR_LENGTH time_signature_key ∧
    tempo = numbered tempo_key (length DEFAULT_TEMPO_BINS) ∧
    instrument =
      map (fun i => instrument_key +:+ "_" +:+
                    program_to_instrument_name (Z.of_nat i)) (seq 0 128)
      ++ [instrument_key +:+ "_drum"] ∧
    length instrument = 129%nat ∧
    pitch =
      numbered pitch_key 128 ++
      map (fun i => pitch_key +:+ "_drum_" +:+ str (Z.of_nat i)) (seq 0 128) ∧
    length pitch = 256%nat ∧
    velocity = numbered velocity_key (length DEFAULT_VELOCITY_BINS) ∧
    duration = numbered duration_key (length DEFAULT_DURATION_BINS) ∧
    bar = numbered bar_key (Z.to_nat MAX_N_BARS) ∧
    position =
      numbered position_key
        (Z.to_nat (MAX_BAR_LENGTH * 4 * DEFAULT_POS_PER_QUARTER)) ∧
    length position =
      Z.to_nat (MAX_BAR_LENGTH * 4 * DEFAULT_POS_PER_QUARTER).
Proof.
  do 8 eexists. split; [reflexivity|].
  split; [reflexivity|].
  split. { unfold numbered, len. now rewrite map_range_0, Nat2Z.id. }
  split. { reflexivity. }
  split. { reflexivity. }
  split. { reflexivity. }
  split. { reflexivity. }
  split. { unfold numbered, len. now rewrite map_range_0, Nat2Z.id. }
  split. { unfold numbered, len. now rewrite map_range_0, Nat2Z.id. }
  split. { unfold numbered. now rewrite map_range_0. }
  split. { unfold numbered. now rewrite map_range_0. }
  now rewrite length_map, length_range, Z.sub_0_r.
Qed.

End MidiTokens.

(** ** Persisted token list *)

Lemma split_nl_no_newline t : has_newline t = false → split_nl t = [t].
Proof.
  induction t as [|c t IH]; simpl; [done|].
  case_decide; [done|]. intros Hn. now rewrite IH.
Qed.

Lemma split_nl_line t s :
  has_newline t = false →
  split_nl (t +:+ String newline s) = t :: split_nl s.
Proof.
  induction t as [|c t IH]; simpl.
  - done.
  - case_decide; [done|]. intros Hn. now rewrite IH.
Qed.

Lemma split_nl_join_nl toks :
  toks ≠ [] → Forall (fun t => has_newline t = false) toks →
  split_nl (join_nl toks) = toks.
Proof.
  induction toks as [|t toks IH]; [done|]. intros _ Hall.
  apply Forall_cons in Hall as [Ht Hall].
  destruct toks as [|t' toks].
  - simpl. now apply split_nl_no_newline.
  - change (join_nl (t :: t' :: toks))
      with (t +:+ String newline (join_nl (t' :: toks))).
    rewrite split_nl_line by done. f_equal. now apply IH.
Qed.

Lemma split_nl_join_nl_nil : split_nl (join_nl []) = [""].
Proof. reflexivity. Qed.

(** The indices of the specials do not depend on the token occurrences. *)
Lemma final_maps_forward_special counter sp t :
  t ∈ sp → (final_maps counter sp).1 !! t = (specials_loop sp).1 !! t.
Proof.
  intros Hin. destruct (proj2 (consistent_specials_loop sp) t) as [i Hi].
  { now rewrite specials_loop_backward. }
  rewrite Hi. now apply counter_loop_stable.
Qed.

(** Reading in text mode what was written in text mode gives the text
    back, when the text has no carriage return of its own. *)
Lemma has_cr_app a b : has_cr (a +:+ b) = has_cr a || has_cr b.
Proof.
  induction a as [|c a IH]; simpl; [done|]. now case_decide.
Qed.

Lemma has_cr_join_nl toks :
  Forall (fun t => has_cr t = false) toks → has_cr (join_nl toks) = false.
Proof.
  induction 1 as [|t toks Ht Hall IH]; [done|].
  destruct toks as [|t' toks]; [done|].
  change (join_nl (t :: t' :: toks))
    with (t +:+ String newline (join_nl (t' :: toks))).
  rewrite has_cr_app, Ht. simpl. exact IH.
Qed.

Lemma newline_not_cr : newline ≠ carriage_return.
Proof. discriminate. Qed.

Lemma universal_newlines_cons c chars :
  c ≠ carriage_return →
  universal_newlines (String c chars) = String c (universal_newlines chars).
Proof. intros Hc. cbn [universal_newlines]. now rewrite decide_False. Qed.

Lemma universal_newlines_crlf chars :
  universal_newlines (String carriage_return (String newline chars)) =
  String newline (universal_newlines chars).
Proof. reflexivity. Qed.

Lemma lf_append w : String newline "" +:+ w = String newline w.
Proof. reflexivity. Qed.

Lemma crlf_append w :
  String carriage_return (String newline "") +:+ w =
  String carriage_return (String newline w).
Proof. reflexivity. Qed.

Lemma universal_write_newlines `{FileSystem fs} text :
  has_cr text = false →
  universal_newlines (write_newlines os_linesep text) = text.
Proof.
  destruct os_linesep_cases as [-> | ->];
    induction text as [|c text IH]; [done| |done|];
    cbn [has_cr write_newlines];
    (destruct (decide (c = carriage_return)) as [Hcr|Hcr]; [done|]);
    intros Hno; destruct (decide (c = newline)) as [-> | Hnl];
    rewrite ?lf_append, ?crlf_append, ?universal_newlines_crlf;
    rewrite ?universal_newlines_cons by done;
    now rewrite IH.
Qed.

Lemma one_line_join_nl `{FileSystem fs} toks :
  Forall one_line toks →
  universal_newlines (write_newlines os_linesep (join_nl toks)) = join_nl toks.
Proof.
  intros Hall. apply universal_write_newlines, has_cr_join_nl.
  eapply Forall_impl; [exact Hall|]. now intros t [_ ?].
Qed.

Lemma load_or_build_build `{FileSystem fs} build path (s s1 : fs) :
  path_exists s path = false →
  write_chars s path (write_newlines os_linesep (join_nl build)) = Ok s1 →
  load_or_build build path s = Ok (build, s1).
Proof.
  intros Hex Hw. unfold load_or_build, write_text. now rewrite Hex, Hw.
Qed.

Lemma load_or_build_load `{FileSystem fs} build path (s : fs) chars :
  stored s path chars →
  load_or_build build path s = Ok (split_nl (universal_newlines chars), s).
Proof.
  intros [Hex Hr]. unfold load_or_build, read_text. now rewrite Hex, Hr.
Qed.

(** Loading the file in which a list of one-line tokens was saved. *)
Lemma load_or_build_reload `{FileSystem fs} build path (s1 : fs) :
  Forall one_line build →
  stored s1 path (write_newlines os_linesep (join_nl build)) →
  load_or_build build path s1 = Ok (split_nl (join_nl build), s1).
Proof.
  intros Hall Hst. rewrite (load_or_build_load _ _ _ _ Hst).
  now rewrite one_line_join_nl.
Qed.

(** C9, as amended: when a token list whose tokens contain neither a
    newline nor a carriage return is saved as a newline-joined text, and
    the file then holds what was written, the token list loaded from it by
    splitting the text read at the newlines gives a Vocab in which every
    token of the vocabulary of the saved list has the same index. *)
Theorem persistence_round_trip `{FileSystem fs} (build : list string)
    (path : string) (s s1 : fs) sp unk :
  Forall one_line build →
  path_exists s path = false →
  write_chars s path (write_newlines os_linesep (join_nl build)) = Ok s1 →
  stored s1 path (write_newlines os_linesep (join_nl build)) →
  ∃ reloaded v v',
    load_or_build build path s = Ok (build, s1) ∧
    load_or_build build path s1 = Ok (reloaded, s1) ∧
    reloaded = split_nl (join_nl build) ∧
    Vocab_init (Counter build) sp unk = Ok v ∧
    Vocab_init (Counter reloaded) sp unk = Ok v' ∧
    (∀ t, t ∈ backward_map v → to_i v' t = to_i v t) ∧
    (build ≠ [] → v' = v).
Proof.
  intros Hall Hex Hw Hst.
  exists (split_nl (join_nl build)).
  destruct (Vocab_init_ok (Counter build) sp unk) as (d & Hv & Hd & Hd0).
  destruct (Vocab_init_ok (Counter (split_nl (join_nl build))) sp unk)
    as (d' & Hv' & Hd' & Hd0').
  assert (Hdd : d' = d).
  { destruct (decide (unk ∈ sp)) as [Hin|Hin].
    - specialize (Hd Hin). specialize (Hd' Hin). congruence.
    - rewrite Hd0, Hd0'; done. }
  subst d'. do 2 eexists.
  split; [now apply load_or_build_build|].
  split; [now apply load_or_build_reload|].
  split; [reflexivity|]. split; [exact Hv|]. split; [exact Hv'|].
  destruct build as [|t0 build].
  - split; [|done]. intros t Ht. simpl in Ht.
    rewrite final_maps_backward_Counter, app_nil_r in Ht.
    unfold to_i, dict_get. cbn [forward_map default_token].
    now rewrite !final_maps_forward_special by done.
  - assert (Heq : split_nl (join_nl (t0 :: build)) = t0 :: build).
    { apply split_nl_join_nl; [done|].
      eapply Forall_impl; [exact Hall|]. now intros t [? _]. }
    rewrite Heq. split; [done|]. done.
Qed.

Lemma persistence_round_trip_witness :
  Forall one_line ["Pitch_60"; "Pitch_62"] ∧
  path_exists tokens_dir "tokens/remi_tokens.txt" = false ∧
  write_chars tokens_dir "tokens/remi_tokens.txt"
    (write_newlines os_linesep (join_nl ["Pitch_60"; "Pitch_62"])) =
    Ok (<["tokens/remi_tokens.txt" :=
            File (join_nl ["Pitch_60"; "Pitch_62"])]> tokens_dir) ∧
  stored (<["tokens/remi_tokens.txt" :=
              File (join_nl ["Pitch_60"; "Pitch_62"])]> tokens_dir)
    "tokens/remi_tokens.txt"
    (write_newlines os_linesep (join_nl ["Pitch_60"; "Pitch_62"])) ∧
  ∃ reloaded v v',
    load_or_build ["Pitch_60"; "Pitch_62"] "tokens/remi_tokens.txt" tokens_dir =
      Ok (["Pitch_60"; "Pitch_62"],
          <["tokens/remi_tokens.txt" :=
              File (join_nl ["Pitch_60"; "Pitch_62"])]> tokens_dir) ∧
    load_or_build ["Pitch_60"; "Pitch_62"] "tokens/remi_tokens.txt"
      (<["tokens/remi_tokens.txt" :=
           File (join_nl ["Pitch_60"; "Pitch_62"])]> tokens_dir) =
      Ok (reloaded,
          <["tokens/remi_tokens.txt" :=
              File (join_nl ["Pitch_60"; "Pitch_62"])]> tokens_dir) ∧
    reloaded = split_nl (join_nl ["Pitch_60"; "Pitch_62"]) ∧
    Vocab_init (Counter ["Pitch_60"; "Pitch_62"]) default_specials UNK_TOKEN = Ok v ∧
    Vocab_init (Counter reloaded) default_specials UNK_TOKEN = Ok v' ∧
    (∀ t, t ∈ backward_map v → to_i v' t = to_i v t) ∧
    (["Pitch_60"; "Pitch_62"] ≠ [] → v' = v).
Proof.
  assert (H1 : Forall one_line ["Pitch_60"; "Pitch_62"])
    by (repeat constructor).
  assert (H2 : path_exists tokens_dir "tokens/remi_tokens.txt" = false)
    by (vm_compute; reflexivity).
  assert (H3 : write_chars tokens_dir "tokens/remi_tokens.txt"
                 (write_newlines os_linesep (join_nl ["Pitch_60"; "Pitch_62"])) =
               Ok (<["tokens/remi_tokens.txt" :=
                       File (join_nl ["Pitch_60"; "Pitch_62"])]> tokens_dir))
    by (vm_compute; reflexivity).
  assert (H4 : stored (<["tokens/remi_tokens.txt" :=
                           File (join_nl ["Pitch_60"; "Pitch_62"])]> tokens_dir)
                 "tokens/remi_tokens.txt"
                 (write_newlines os_linesep (join_nl ["Pitch_60"; "Pitch_62"])))
    by (split; vm_compute; reflexivity).
  split; [exact H1|]. split; [exact H2|]. split; [exact H3|].
  split; [exact H4|].
  exact (persistence_round_trip _ _ _ _ default_specials UNK_TOKEN H1 H2 H3 H4).
Defined.

(** C9, as stated for tokens without newline characters, fails for a token
    with a carriage return: the token list [a<CR>b, c] is saved and loaded
    back as [a, b, c], so the token that had index 5 is unknown to the
    Vocab of the loaded list. *)
Lemma persistence_fails_on_carriage_return :
  ∃ s1 reloaded v v',
    Forall (fun t => has_newline t = false) [token_with_cr; "c"] ∧
    load_or_build [token_with_cr; "c"] "tokens/remi_tokens.txt" tokens_dir =
      Ok ([token_with_cr; "c"], s1) ∧
    load_or_build [token_with_cr; "c"] "tokens/remi_tokens.txt" s1 =
      Ok (reloaded, s1) ∧
    reloaded = ["a"; "b"; "c"] ∧
    Vocab_init (Counter [token_with_cr; "c"]) default_specials UNK_TOKEN = Ok v ∧
    Vocab_init (Counter reloaded) default_specials UNK_TOKEN = Ok v' ∧
    token_with_cr ∈ backward_map v ∧
    to_i v token_with_cr = 5 ∧
    to_i v' token_with_cr = 1.
Proof.
  do 4 eexists.
  split; [repeat constructor|].
  split; [vm_compute; reflexivity|].
  split; [vm_compute; reflexivity|].
  split; [reflexivity|].
  split; [vm_compute; reflexivity|].
  split; [vm_compute; reflexivity|].
  split; [apply (bool_decide_unpack _); vm_compute; exact I|].
  split; vm_compute; reflexivity.
Qed.

(** ** [RemiVocab] on a file system without and with the token file *)

Section RemiVocabFacts.

Variable program_to_instrument_name : Z -> string.
Variables MAX_BAR_LENGTH MAX_N_BARS DEFAULT_POS_PER_QUARTER : Z.
Context {bin : Type}.
Variables DEFAULT_VELOCITY_BINS DEFAULT_DURATION_BINS DEFAULT_TEMPO_BINS : list bin.
Variables INSTRUMENT_KEY TIME_SIGNATURE_KEY PITCH_KEY VELOCITY_KEY
          DURATION_KEY TEMPO_KEY BAR_KEY POSITION_KEY CHORD_KEY : string.
Variables PAD UNK BOS EOS MASK : string.
Context `{FileSystem fs}.

#[local] Abbreviation tokens :=
  (remi_tokens program_to_instrument_name
     MAX_BAR_LENGTH MAX_N_BARS DEFAULT_POS_PER_QUARTER
     DEFAULT_VELOCITY_BINS DEFAULT_DURATION_BINS DEFAULT_TEMPO_BINS
     INSTRUMENT_KEY TIME_SIGNATURE_KEY PITCH_KEY VELOCITY_KEY
     DURATION_KEY TEMPO_KEY BAR_KEY POSITION_KEY CHORD_KEY).

#[local] Abbreviation init :=
  (RemiVocab_init program_to_instrument_name
     MAX_BAR_LENGTH MAX_N_BARS DEFAULT_POS_PER_QUARTER
     DEFAULT_VELOCITY_BINS DEFAULT_DURATION_BINS DEFAULT_TEMPO_BINS
     INSTRUMENT_KEY TIME_SIGNATURE_KEY PITCH_KEY VELOCITY_KEY
     DURATION_KEY TEMPO_KEY BAR_KEY POSITION_KEY CHORD_KEY
     PAD UNK BOS EOS MASK).

(** The sentinel chord is always there, so the token list is never empty. *)
Lemma remi_tokens_nonempty : tokens ≠ [].
Proof.
  unfold remi_tokens. intros Hnil.
  apply app_eq_nil in Hnil as [_ Hnil]. discriminate Hnil.
Qed.

Lemma RemiVocab_init_build path (s s1 : fs) :
  path_exists s path = false →
  write_chars s path (write_newlines os_linesep (join_nl tokens)) = Ok s1 →
  ∃ v, init path s = Ok (tokens, v, s1) ∧
       Vocab_init (Counter tokens) [PAD; UNK; BOS; EOS; MASK] UNK = Ok v.
Proof.
  intros Hex Hw.
  destruct (Vocab_init_ok (Counter tokens) [PAD; UNK; BOS; EOS; MASK] UNK)
    as (d & Hv & _).
  eexists. split; [|exact Hv].
  unfold RemiVocab_init. rewrite (load_or_build_build _ _ _ _ Hex Hw).
  simpl. now rewrite Hv.
Qed.

Lemma RemiVocab_init_load path (s : fs) chars :
  stored s path chars →
  ∃ v, init path s = Ok (split_nl (universal_newlines chars), v, s) ∧
       Vocab_init (Counter (split_nl (universal_newlines chars)))
         [PAD; UNK; BOS; EOS; MASK] UNK = Ok v.
Proof.
  intros Hst.
  destruct (Vocab_init_ok (Counter (split_nl (universal_newlines chars)))
              [PAD; UNK; BOS; EOS; MASK] UNK) as (d & Hv & _).
  eexists. split; [|exact Hv].
  unfold RemiVocab_init. rewrite (load_or_build_load _ _ _ _ Hst).
  simpl. now rewrite Hv.
Qed.

(** When no token contains a newline or a carriage return, the first
    construction writes the token file and, the file holding what was
    written, a second construction loads the same tokens from it and
    builds the same Vocab. *)
Lemma RemiVocab_init_twice path (s s1 : fs) :
  Forall one_line tokens →
  path_exists s path = false →
  write_chars s path (write_newlines os_linesep (join_nl tokens)) = Ok s1 →
  stored s1 path (write_newlines os_linesep (join_nl tokens)) →
  ∃ v, init path s = Ok (tokens, v, s1) ∧
       init path s1 = Ok (tokens, v, s1).
Proof.
  intros Hall Hex Hw Hst.
  destruct (RemiVocab_init_build path s s1 Hex Hw) as (v & H1 & Hv).
  exists v. split; [exact H1|].
  destruct (RemiVocab_init_load path s1 _ Hst) as (v' & H2 & Hv').
  rewrite (one_line_join_nl _ Hall) in H2, Hv'.
  rewrite split_nl_join_nl in H2, Hv'.
  - rewrite Hv in Hv'. injection Hv' as <-. exact H2.
  - apply remi_tokens_nonempty.
  - eapply Forall_impl; [exact Hall|]. now intros t [? _].
  - apply remi_tokens_nonempty.
  - eapply Forall_impl; [exact Hall|]. now intros t [? _].
Qed.

End RemiVocabFacts.

(** ** Instances at concrete inputs *)

Lemma to_i_unknown_is_default_witness :
  ∃ v, Vocab_init (Counter ["Pitch_60"; "Pitch_62"; "Pitch_60"])
         default_specials UNK_TOKEN = Ok v ∧
       ("Pitch_61" ∉ backward_map v) ∧
       to_i v "Pitch_61" = default_token v ∧
       (UNK_TOKEN ∈ default_specials) ∧
       to_i v UNK_TOKEN = default_token v ∧
       default_token v = 1.
Proof.
  destruct (to_i_unknown_is_default
              (Counter ["Pitch_60"; "Pitch_62"; "Pitch_60"])
              default_specials UNK_TOKEN) as (v & Hv & Hout & Hin & _).
  assert (Hu : UNK_TOKEN ∈ default_specials)
    by (apply (bool_decide_unpack _); vm_compute; exact I).
  exists v. split; [exact Hv|].
  assert (H61 : "Pitch_61" ∉ backward_map v).
  { vm_compute in Hv. injection Hv as <-.
    apply (bool_decide_unpack _). vm_compute. exact I. }
  split; [exact H61|]. split; [exact (Hout _ H61)|].
  split; [exact Hu|]. split; [exact (proj1 (Hin Hu))|].
  vm_compute in Hv. injection Hv as <-. reflexivity.
Defined.

Lemma to_s_negative_index_witness :
  ∃ v, Vocab_init (Counter ["Pitch_60"; "Pitch_62"; "Pitch_60"])
         default_specials UNK_TOKEN = Ok v ∧
       Vocab_len v = 7 ∧
       to_s UNK_TOKEN v (-1) = Ok "Pitch_62" ∧
       to_s UNK_TOKEN v (-7) = Ok PAD_TOKEN ∧
       to_s UNK_TOKEN v (-8) = Raise IndexError.
Proof.
  destruct (to_s_negative_index
              (Counter ["Pitch_60"; "Pitch_62"; "Pitch_60"])
              default_specials UNK_TOKEN UNK_TOKEN) as (v & Hv & Hneg & Hlast & Hlow).
  exists v. split; [exact Hv|].
  assert (Hb : backward_map v = default_specials ++ ["Pitch_60"; "Pitch_62"]).
  { vm_compute in Hv. injection Hv as <-. reflexivity. }
  assert (Hlen : Vocab_len v = 7).
  { unfold Vocab_len. now rewrite Hb. }
  split; [exact Hlen|]. split; [|split].
  - apply Hlast. now rewrite Hb.
  - destruct (Hneg (-7)) as (t & Ht & Hs); [lia|].
    rewrite Hlen, Hb in Ht. injection Ht as <-. exact Hs.
  - apply Hlow. lia.
Defined.

(** * Further properties of the code *)

(** ** The mapping of a constructed Vocab *)

(** A token of the vocabulary is found again at its index, whatever the
    specials and the token occurrences. *)
Theorem to_s_to_i_present counter sp unk UNK :
  ∃ v, Vocab_init counter sp unk = Ok v ∧
       ∀ t, t ∈ backward_map v → to_s UNK v (to_i v t) = Ok t.
Proof.
  destruct (Vocab_init_ok counter sp unk) as (d & Hv & _).
  destruct (consistent_final counter sp) as [Ha Hb].
  eexists. split; [exact Hv|]. intros t Ht. simpl in Ht.
  destruct (Hb t Ht) as [i Hi]. destruct (Ha t i Hi) as [H0 H1].
  rewrite (to_i_mapped _ t i) by exact Hi.
  rewrite <- (Z2Nat.id i) by lia. now apply to_s_in_range.
Qed.

Lemma to_i_bounds counter sp unk :
  ∃ v, Vocab_init counter sp unk = Ok v ∧
       (0 < Vocab_len v → ∀ t, 0 <= to_i v t < Vocab_len v) ∧
       (Vocab_len v = 0 → ∀ t, to_i v t = 0).
Proof.
  destruct (Vocab_init_ok counter sp unk) as (d & Hv & Hin & Hout).
  pose proof (consistent_final counter sp) as Hc.
  pose proof (final_maps_backward counter sp) as Hb.
  assert (Hd : 0 < len (final_maps counter sp).2 →
               0 <= d < len (final_maps counter sp).2).
  { intros Hpos. destruct (decide (unk ∈ sp)) as [Hu|Hu].
    - pose proof (consistent_index_lt _ _ _ (consistent_specials_loop sp) (Hin Hu)) as Hlt.
      rewrite specials_loop_backward in Hlt. rewrite Hb, len_app.
      pose proof (len_nonneg (first_seen sp counter.*1)). lia.
    - rewrite (Hout Hu). lia. }
  eexists. split; [exact Hv|]. unfold Vocab_len, to_i, dict_get. simpl. split.
  - intros Hpos t. destruct ((final_maps counter sp).1 !! t) as [i|] eqn:E.
    + now apply (consistent_index_lt _ t).
    + now apply Hd.
  - intros Hz t.
    assert (Hnil : (final_maps counter sp).2 = []).
    { destruct (final_maps counter sp).2; [done|]. unfold len in Hz. simpl in Hz. lia. }
    assert (Hsp : sp = []).
    { rewrite Hb in Hnil. now apply app_eq_nil in Hnil as [? _]. }
    rewrite (proj2 (consistent_unmapped_iff _ t Hc)).
    + apply Hout. rewrite Hsp. apply not_elem_of_nil.
    + rewrite Hnil. apply not_elem_of_nil.
Qed.

Lemma filter_iff_on {A} (P Q : A → Prop)
    `{!∀ x, Decision (P x), !∀ x, Decision (Q x)} (l : list A) :
  (∀ x, x ∈ l → P x ↔ Q x) → filter P l = filter Q l.
Proof.
  induction l as [|a l IH]; intros Hiff; [done|].
  assert (Hl : ∀ x, x ∈ l → P x ↔ Q x)
    by (intros x Hx; apply Hiff; now apply list_elem_of_further).
  pose proof (Hiff a (list_elem_of_here a l)) as Ha.
  destruct (decide (P a)).
  - rewrite !filter_cons_True by tauto. now rewrite IH.
  - rewrite !filter_cons_False by tauto. now rewrite IH.
Qed.

Lemma first_seen_NoDup seen toks :
  NoDup toks → first_seen seen toks = filter (fun t => t ∉ seen) toks.
Proof.
  revert seen. induction toks as [|t toks IH]; intros seen Hnd; [done|].
  apply NoDup_cons in Hnd as [Hnot Hnd]. simpl. case_decide as Hin.
  - rewrite filter_cons_False by tauto. now apply IH.
  - rewrite filter_cons_True by done. f_equal. rewrite IH by done.
    apply filter_iff_on. intros x Hx.
    rewrite elem_of_app, list_elem_of_singleton.
    split; [tauto|]. intros Hs [?| ->]; tauto.
Qed.

(** The size of a Vocab built from a dictionary: the specials, plus the
    keys that are not specials. *)
Theorem Vocab_len_specials_plus_new (counter : list (string * Z)) sp unk :
  NoDup (counter.*1) →
  ∃ v, Vocab_init counter sp unk = Ok v ∧
       backward_map v = sp ++ filter (fun t => t ∉ sp) (counter.*1) ∧
       Vocab_len v = len sp + len (filter (fun t => t ∉ sp) (counter.*1)).
Proof.
  intros Hnd. destruct (Vocab_init_ok counter sp unk) as (d & Hv & _).
  eexists. split; [exact Hv|]. unfold Vocab_len. simpl.
  rewrite final_maps_backward, first_seen_NoDup by done.
  split; [done|]. apply len_app.
Qed.

Lemma counter_loop_keys c c' st :
  c.*1 = c'.*1 → fold_left add_token c st = fold_left add_token c' st.
Proof.
  revert c' st. induction c as [|[t n] c IH]; intros [|[t' n'] c'] st Heq;
    try done.
  injection Heq as -> Heq. cbn [fold_left].
  change (add_token st (t', n)) with (add_token st (t', n')).
  now apply IH.
Qed.

(** The counts of the counter are never read: two counters with the same
    keys in the same order give the same Vocab. *)
Theorem Vocab_init_ignores_counts (c c' : list (string * Z)) sp unk :
  c.*1 = c'.*1 → Vocab_init c sp unk = Vocab_init c' sp unk.
Proof.
  intros Heq. unfold Vocab_init.
  now rewrite (counter_loop_keys c c' _ Heq).
Qed.

Lemma Vocab_init_ignores_counts_witness :
  [("Pitch_60", 2); ("Pitch_62", 1)].*1 = [("Pitch_60", 7); ("Pitch_62", 40)].*1 ∧
  Vocab_init [("Pitch_60", 2); ("Pitch_62", 1)] default_specials UNK_TOKEN =
  Vocab_init [("Pitch_60", 7); ("Pitch_62", 40)] default_specials UNK_TOKEN.
Proof.
  assert (H : [("Pitch_60", 2); ("Pitch_62", 1)].*1 =
              [("Pitch_60", 7); ("Pitch_62", 40)].*1) by reflexivity.
  split; [exact H|]. exact (Vocab_init_ignores_counts _ _ _ _ H).
Defined.

(** Appending occurrences to the token sequence only appends to the
    vocabulary: the Vocab of the longer sequence lists the tokens of the
    shorter one first, at the same indices, with the same default index. *)
Theorem Vocab_init_extension toks more sp unk :
  ∃ v v', Vocab_init (Counter toks) sp unk = Ok v ∧
          Vocab_init (Counter (toks ++ more)) sp unk = Ok v' ∧
          backward_map v' =
            backward_map v ++ first_seen (backward_map v) more ∧
          default_token v' = default_token v ∧
          ∀ t, t ∈ backward_map v → to_i v' t = to_i v t.
Proof.
  destruct (Vocab_init_ok (Counter toks) sp unk) as (d & Hv & Hd & Hd0).
  destruct (Vocab_init_ok (Counter (toks ++ more)) sp unk)
    as (d' & Hv' & Hd' & Hd0').
  assert (Hdd : d' = d).
  { destruct (decide (unk ∈ sp)) as [Hin|Hin].
    - specialize (Hd Hin). specialize (Hd' Hin). congruence.
    - rewrite Hd0, Hd0'; done. }
  subst d'. do 2 eexists. split; [exact Hv|]. split; [exact Hv'|]. simpl.
  rewrite !final_maps_backward_Counter, first_seen_app.
  split; [now rewrite app_assoc|]. split; [done|].
  intros t Ht. unfold to_i, dict_get. simpl.
  destruct (decide (t ∈ sp)) as [Hsp|Hsp].
  - now rewrite !final_maps_forward_special by done.
  - apply elem_of_app in Ht as [Ht|Ht]; [done|].
    apply list_elem_of_lookup in Ht as [i Hi].
    rewrite (consistent_forward_app _ sp (first_seen sp toks) i t
               (consistent_final _ _) (final_maps_backward_Counter _ _)
               Hsp (NoDup_first_seen _ _) Hi).
    rewrite (consistent_forward_app _ sp (first_seen sp (toks ++ more)) i t
               (consistent_final _ _) (final_maps_backward_Counter _ _)
               Hsp (NoDup_first_seen _ _)); [done|].
    rewrite first_seen_app. now apply lookup_app_l_Some.
Qed.

(** The indices of the specials, and the default index, are fixed by the
    specials alone: they are the same whatever the counter. *)
Theorem specials_indices_independent_of_counter
    (c c' : list (string * Z)) sp unk :
  ∃ v v', Vocab_init c sp unk = Ok v ∧
          Vocab_init c' sp unk = Ok v' ∧
          default_token v = default_token v' ∧
          ∀ t, t ∈ sp → to_i v t = to_i v' t.
Proof.
  destruct (Vocab_init_ok c sp unk) as (d & Hv & Hd & Hd0).
  destruct (Vocab_init_ok c' sp unk) as (d' & Hv' & Hd' & Hd0').
  assert (Hdd : d' = d).
  { destruct (decide (unk ∈ sp)) as [Hin|Hin].
    - specialize (Hd Hin). specialize (Hd' Hin). congruence.
    - rewrite Hd0, Hd0'; done. }
  subst d'. do 2 eexists. split; [exact Hv|]. split; [exact Hv'|].
  split; [done|]. intros t Ht. unfold to_i, dict_get. simpl.
  now rewrite !final_maps_forward_special by done.
Qed.

Lemma specials_loop_forward_last sp t i :
  (specials_loop sp).1 !! t = Some i →
  ∀ j, (Z.to_nat i < j)%nat → sp !! j ≠ Some t.
Proof.
  revert i. induction sp as [|x sp IH] using rev_ind; intros i Hi j Hj.
  - now rewrite lookup_nil.
  - rewrite specials_loop_snoc in Hi. simpl in Hi.
    rewrite lookup_insert in Hi. case_decide as Hx.
    + injection Hi as <-. unfold len in Hj. rewrite Nat2Z.id in Hj.
      rewrite lookup_ge_None_2; [done|]. rewrite length_app. simpl. lia.
    + destruct (decide (j < length sp)%nat) as [Hlt|Hge].
      * rewrite lookup_app_l by done. now apply (IH i).
      * destruct (decide (j = length sp)) as [-> | Hne].
        -- rewrite list_lookup_middle by done. congruence.
        -- rewrite lookup_ge_None_2; [done|]. rewrite length_app. simpl. lia.
Qed.

(** A special listed several times is indexed by its last position in the
    list of specials. *)
Theorem to_i_special_last_position counter sp unk :
  ∃ v, Vocab_init counter sp unk = Ok v ∧
       ∀ s, s ∈ sp →
         ∃ i : nat, sp !! i = Some s ∧
                    (∀ j, (i < j)%nat → sp !! j ≠ Some s) ∧
                    to_i v s = Z.of_nat i.
Proof.
  destruct (Vocab_init_ok counter sp unk) as (d & Hv & _).
  eexists. split; [exact Hv|]. intros s Hs.
  destruct (consistent_specials_loop sp) as [Ha Hb].
  destruct (Hb s) as [i Hi]; [now rewrite specials_loop_backward|].
  destruct (Ha s i Hi) as [H0 H1]. rewrite specials_loop_backward in H1.
  exists (Z.to_nat i). split; [exact H1|]. split.
  - now apply specials_loop_forward_last.
  - apply to_i_mapped. simpl. rewrite final_maps_forward_special by done.
    rewrite Hi. f_equal. lia.
Qed.

(** ** [encode] and [decode] *)

Lemma to_s_nonneg UNK v idx :
  0 <= idx → to_s UNK v idx = Ok (default UNK (backward_map v !! Z.to_nat idx)).
Proof.
  intros H0. destruct (Z.le_gt_cases (Vocab_len v) idx) as [Hge|Hlt].
  - rewrite to_s_oversized by done.
    rewrite lookup_ge_None_2; [done|]. unfold Vocab_len, len in Hge. lia.
  - destruct (lookup_len_lt (backward_map v) idx) as [t Ht]; [done|].
    rewrite Ht. simpl. rewrite <- (Z2Nat.id idx) by lia.
    now apply to_s_in_range.
Qed.

Lemma to_s_not_below UNK v idx :
  - Vocab_len v <= idx → ∃ t, to_s UNK v idx = Ok t.
Proof.
  intros H. destruct (Z.lt_ge_cases idx 0) as [Hneg|Hpos].
  - destruct (lookup_len_lt (backward_map v) (Vocab_len v + idx)) as [t Ht].
    { unfold Vocab_len in *. lia. }
    exists t. now apply to_s_negative.
  - eexists. now apply to_s_nonneg.
Qed.

Lemma decode_cons UNK v idx rest :
  decode UNK v (idx :: rest) =
  match to_s UNK v idx with
  | Ok s => match decode UNK v rest with
            | Ok ss => Ok (s :: ss)
            | Raise e => Raise e
            end
  | Raise e => Raise e
  end.
Proof. reflexivity. Qed.

(** [to_i] always answers with an index of the vocabulary, unless the
    vocabulary is empty, where it answers 0; so [encode], which keeps the
    length, yields only indices of the vocabulary when it is not empty. *)
Theorem encode_in_range counter sp unk :
  ∃ v, Vocab_init counter sp unk = Ok v ∧
       (0 < Vocab_len v → ∀ t, 0 <= to_i v t < Vocab_len v) ∧
       (Vocab_len v = 0 → ∀ t, to_i v t = 0) ∧
       ∀ seq, length (encode v seq) = length seq ∧
              (0 < Vocab_len v →
               Forall (fun i => 0 <= i < Vocab_len v) (encode v seq)).
Proof.
  destruct (to_i_bounds counter sp unk) as (v & Hv & Hr & Hz).
  exists v. split; [exact Hv|]. split; [exact Hr|]. split; [exact Hz|].
  intros seq. split.
  - unfold encode. apply length_map.
  - intros Hpos. unfold encode. apply Forall_forall. intros i Hi.
    apply list_elem_of_In, in_map_iff in Hi as (t & <- & _). now apply Hr.
Qed.

Lemma to_s_to_i_fallback counter sp unk UNK :
  ∃ v, Vocab_init counter sp unk = Ok v ∧
       ∀ t, to_s UNK v (to_i v t) =
            Ok (if decide (t ∈ backward_map v) then t
                else fallback_token UNK unk v).
Proof.
  destruct (Vocab_init_ok counter sp unk) as (d & Hv & Hin & Hout).
  pose proof (consistent_final counter sp) as Hc.
  eexists. split; [exact Hv|]. intros t. simpl.
  destruct (decide (t ∈ (final_maps counter sp).2)) as [Ht|Ht].
  - destruct Hc as [Ha Hb]. destruct (Hb t Ht) as [i Hi].
    destruct (Ha t i Hi) as [H0 H1].
    rewrite (to_i_mapped _ t i) by exact Hi.
    rewrite <- (Z2Nat.id i) by lia. now apply to_s_in_range.
  - rewrite to_i_unmapped
      by (simpl; now apply (consistent_unmapped_iff _ t Hc)).
    unfold fallback_token. simpl. destruct (decide (unk ∈ sp)) as [Hu|Hu].
    + destruct (consistent_specials_loop sp) as [Ha _].
      destruct (Ha unk d (Hin Hu)) as [H0 H1].
      rewrite specials_loop_backward in H1.
      rewrite <- (Z2Nat.id d) by lia. apply to_s_in_range. simpl.
      rewrite final_maps_backward. now apply lookup_app_l_Some.
    + rewrite (Hout Hu), to_s_nonneg by done. simpl.
      now destruct (final_maps counter sp).2.
Qed.

(** [decode] after [encode] gives the sequence back with every token that
    is not in the vocabulary replaced by the fallback token; on a sequence
    of vocabulary tokens it gives the sequence back unchanged. *)
Theorem decode_encode counter sp unk UNK :
  ∃ v, Vocab_init counter sp unk = Ok v ∧
       (∀ seq, decode UNK v (encode v seq) =
               Ok (map (fun t => if decide (t ∈ backward_map v) then t
                                 else fallback_token UNK unk v) seq)) ∧
       (∀ seq, Forall (fun t => t ∈ backward_map v) seq →
               decode UNK v (encode v seq) = Ok seq).
Proof.
  destruct (to_s_to_i_fallback counter sp unk UNK) as (v & Hv & Hf).
  exists v. split; [exact Hv|].
  assert (Hall : ∀ seq, decode UNK v (encode v seq) =
            Ok (map (fun t => if decide (t ∈ backward_map v) then t
                              else fallback_token UNK unk v) seq)).
  { induction seq as [|t seq IH]; [done|].
    unfold encode in *. cbn [map]. now rewrite decode_cons, Hf, IH. }
  split; [exact Hall|]. intros seq Hseq. rewrite Hall. f_equal.
  induction Hseq as [|t seq Ht _ IH]; [done|].
  cbn [map]. now rewrite decide_True, IH by done.
Qed.

(** [encode] after [decode] gives back a sequence of indices of the
    vocabulary, when no special is listed twice. *)
Theorem encode_decode counter sp unk UNK :
  NoDup sp →
  ∃ v, Vocab_init counter sp unk = Ok v ∧
       ∀ idxs, Forall (fun i => 0 <= i < Vocab_len v) idxs →
               ∃ toks, decode UNK v idxs = Ok toks ∧ encode v toks = idxs.
Proof.
  intros Hnd. destruct (Vocab_init_ok counter sp unk) as (d & Hv & _).
  pose proof (consistent_final counter sp) as Hc.
  pose proof (NoDup_final_maps counter sp Hnd) as Hnd'.
  eexists. split; [exact Hv|]. intros idxs Hall.
  induction Hall as [|i idxs Hi _ (toks & Hdec & Henc)]; [by exists []|].
  unfold Vocab_len in Hi. simpl in Hi.
  destruct (lookup_len_lt _ _ Hi) as [t Ht].
  exists (t :: toks). split.
  - rewrite decode_cons, Hdec.
    rewrite <- (Z2Nat.id i) by lia.
    now rewrite (to_s_in_range UNK _ _ t) by exact Ht.
  - unfold encode in *. cbn [map]. rewrite Henc. f_equal.
    apply to_i_mapped. simpl.
    rewrite (consistent_NoDup_forward _ _ _ Hc Hnd' Ht). f_equal. lia.
Qed.

Lemma encode_decode_witness :
  NoDup default_specials ∧
  ∃ v, Vocab_init (Counter ["Pitch_60"; "Pitch_62"; "Pitch_60"])
         default_specials UNK_TOKEN = Ok v ∧
       ∀ idxs, Forall (fun i => 0 <= i < Vocab_len v) idxs →
               ∃ toks, decode UNK_TOKEN v idxs = Ok toks ∧ encode v toks = idxs.
Proof.
  assert (H : NoDup default_specials)
    by (apply (bool_decide_unpack _); vm_compute; exact I).
  split; [exact H|]. exact (encode_decode _ _ _ _ H).
Defined.

(** On indices that are not negative [decode] is a lookup in the backward
    map with the UNK literal for everything beyond its end. *)
Theorem decode_nonneg UNK (v : Vocab) idxs :
  Forall (fun i => 0 <= i) idxs →
  decode UNK v idxs =
  Ok (map (fun i => default UNK (backward_map v !! Z.to_nat i)) idxs).
Proof.
  induction 1 as [|i idxs Hi _ IH]; [done|].
  now rewrite decode_cons, to_s_nonneg, IH by done.
Qed.

Lemma decode_nonneg_witness :
  Forall (fun i => 0 <= i) [0; 3; 9] ∧
  decode UNK_TOKEN (mkVocab ∅ default_specials 1 default_specials) [0; 3; 9] =
  Ok [PAD_TOKEN; EOS_TOKEN; UNK_TOKEN].
Proof.
  assert (H : Forall (fun i => 0 <= i) [0; 3; 9])
    by (repeat constructor; discriminate).
  split; [exact H|].
  exact (decode_nonneg UNK_TOKEN
           (mkVocab ∅ default_specials 1 default_specials) [0; 3; 9] H).
Defined.

(** [decode] returns, with one token per index, when every index is at
    least [-Size()], and raises [IndexError] as soon as one index is
    below. *)
Theorem decode_raises_iff_below UNK (v : Vocab) idxs :
  (Forall (fun i => - Vocab_len v <= i) idxs →
   ∃ toks, decode UNK v idxs = Ok toks ∧ length toks = length idxs) ∧
  (Exists (fun i => i < - Vocab_len v) idxs →
   decode UNK v idxs = Raise IndexError).
Proof.
  split.
  - induction 1 as [|i idxs Hi _ (toks & Hdec & Hlen)]; [by exists []|].
    destruct (to_s_not_below UNK v i Hi) as [t Ht].
    exists (t :: toks). rewrite decode_cons, Ht, Hdec. simpl. now rewrite Hlen.
  - induction idxs as [|i idxs IH]; intros Hex.
    + now apply Exists_nil in Hex.
    + rewrite decode_cons.
      destruct (Z.lt_ge_cases i (- Vocab_len v)) as [Hlow|Hok].
      * now rewrite to_s_below.
      * apply Exists_cons in Hex as [Hex|Hex]; [lia|].
        destruct (to_s_not_below UNK v i) as [t Ht]; [lia|].
        now rewrite Ht, IH.
Qed.

Lemma decode_raises_iff_below_witness :
  Forall (fun i => - 5 <= i) [0; -5; 7] ∧
  Exists (fun i => i < - 5) [0; -6; 7] ∧
  decode UNK_TOKEN (mkVocab ∅ default_specials 1 default_specials) [0; -5; 7] =
    Ok [PAD_TOKEN; PAD_TOKEN; UNK_TOKEN] ∧
  decode UNK_TOKEN (mkVocab ∅ default_specials 1 default_specials) [0; -6; 7] =
    Raise IndexError.
Proof.
  assert (H1 : Forall (fun i => - 5 <= i) [0; -5; 7])
    by (repeat constructor; discriminate).
  assert (H2 : Exists (fun i => i < - 5) [0; -6; 7])
    by (right; left; reflexivity).
  split; [exact H1|]. split; [exact H2|].
  pose proof (decode_raises_iff_below UNK_TOKEN
                (mkVocab ∅ default_specials 1 default_specials)) as H.
  split.
  - destruct (proj1 (H [0; -5; 7]) H1) as (toks & Hdec & _).
    rewrite Hdec. vm_compute in Hdec. injection Hdec as <-. reflexivity.
  - exact (proj2 (H [0; -6; 7]) H2).
Defined.

(** ** Distinct tokens *)

Lemma int_of_string_str z :
  NilZero.int_of_string (str z) = Some (Z.to_int z).
Proof.
  unfold str. apply NilZero.isi; destruct z; simpl; try discriminate;
    intros [= H]; now apply Unsigned.to_uint_nonnil in H.
Qed.

Lemma str_inj a b : str a = str b → a = b.
Proof.
  intros H. apply DecimalZ.to_int_inj.
  pose proof (int_of_string_str a) as Ha. rewrite H, int_of_string_str in Ha.
  congruence.
Qed.

Lemma keyed_inj key a b : keyed key a = keyed key b → a = b.
Proof.
  unfold keyed. intros H. apply String.app_inj in H.
  now apply String.app_inj in H.
Qed.

Lemma NoDup_keyed key l : NoDup l → NoDup (map (keyed key) l).
Proof.
  intros H. change (NoDup (keyed key <$> l)).
  apply NoDup_fmap_2_strong; [|done]. intros x y _ _. apply keyed_inj.
Qed.

Lemma NoDup_range a b : NoDup (range a b).
Proof.
  unfold range. change (NoDup ((fun k => a + Z.of_nat k) <$> seq 0 (Z.to_nat (b - a)))).
  apply NoDup_fmap_2_strong; [|apply NoDup_seq]. intros x y _ _. lia.
Qed.

Lemma elem_of_range a b x : x ∈ range a b ↔ a <= x < b.
Proof.
  unfold range. rewrite list_elem_of_In, in_map_iff. split.
  - intros (k & <- & Hk). apply in_seq in Hk. lia.
  - intros H. exists (Z.to_nat (x - a)). split; [lia|]. apply in_seq. lia.
Qed.

Ltac among H :=
  repeat (apply elem_of_cons in H as [-> | H]);
  [.. | now apply elem_of_nil in H].

(** The chord tokens are pairwise distinct when the qualities are. *)
Theorem chord_tokens_NoDup key qualities :
  NoDup qualities → NoDup (get_chord_tokens key qualities).
Proof.
  intros Hq. unfold get_chord_tokens. apply NoDup_keyed.
  set (f := fun root => map (fun quality => root +:+ ":" +:+ quality) qualities).
  change (NoDup ((pitch_classes ≫= f) ++ ["N:N"])).
  apply NoDup_app. split; [|split].
  - apply NoDup_bind.
    + intros r1 r2 y Hr1 Hr2 Hy1 Hy2.
      apply list_elem_of_In, in_map_iff in Hy1 as (q1 & <- & _).
      apply list_elem_of_In, in_map_iff in Hy2 as (q2 & Heq & _).
      unfold pitch_classes in Hr1, Hr2.
      among Hr1; among Hr2; try reflexivity; simpl in Heq; discriminate Heq.
    + intros r _. change (NoDup ((fun quality => r +:+ ":" +:+ quality) <$> qualities)).
      apply NoDup_fmap_2_strong; [|done]. intros x y _ _ H.
      apply String.app_inj in H. now apply String.app_inj in H.
    + apply (bool_decide_unpack _). vm_compute. exact I.
  - intros y Hy HN. apply list_elem_of_singleton in HN. subst y.
    apply list_elem_of_bind in Hy as (r & Hy & Hr).
    apply list_elem_of_In, in_map_iff in Hy as (q & Heq & _).
    unfold pitch_classes in Hr. among Hr; simpl in Heq; discriminate Heq.
  - apply NoDup_singleton.
Qed.

Lemma chord_tokens_NoDup_witness :
  NoDup default_qualities ∧
  NoDup (get_chord_tokens "Chord" default_qualities).
Proof.
  assert (H : NoDup default_qualities)
    by (apply (bool_decide_unpack _); vm_compute; exact I).
  split; [exact H|]. exact (chord_tokens_NoDup "Chord" default_qualities H).
Defined.

(** Twelve tokens per quality and the sentinel; with no quality at all the
    sentinel is the only token. *)
Theorem chord_tokens_length key qualities :
  length (get_chord_tokens key qualities) = (12 * length qualities + 1)%nat ∧
  get_chord_tokens key [] = [keyed key "N:N"].
Proof.
  split; [|reflexivity].
  unfold get_chord_tokens. rewrite length_map, length_app. simpl.
  rewrite !length_app, !length_map. simpl. lia.
Qed.

Lemma uint_slash_inj u u' x y :
  NilEmpty.string_of_uint u +:+ String "/" x =
  NilEmpty.string_of_uint u' +:+ String "/" y →
  u = u' ∧ x = y.
Proof.
  revert u'. induction u as [|u IH|u IH|u IH|u IH|u IH|u IH|u IH|u IH|u IH|u IH];
    intros [|u'|u'|u'|u'|u'|u'|u'|u'|u'|u']; simpl; intros H;
    try discriminate H;
    try (injection H as H; destruct (IH _ H) as [-> ->]; done).
  now injection H as ->.
Qed.

Lemma str_nonneg_uint p :
  0 <= p → ∃ u, str p = NilEmpty.string_of_uint u.
Proof.
  intros Hp. unfold str. destruct p as [|p|p]; [by exists (Decimal.D0 Decimal.Nil)| |lia].
  exists (Pos.to_uint p). simpl. unfold NilZero.string_of_uint.
  destruct (Pos.to_uint p) eqn:E; [|done..].
  now apply Unsigned.to_uint_nonnil in E.
Qed.

Lemma str_slash_inj p p' x y :
  0 <= p → 0 <= p' →
  str p +:+ "/" +:+ x = str p' +:+ "/" +:+ y → p = p' ∧ x = y.
Proof.
  intros Hp Hp' H.
  destruct (str_nonneg_uint p Hp) as [u Hu].
  destruct (str_nonneg_uint p' Hp') as [u' Hu'].
  rewrite Hu, Hu' in H. simpl in H.
  destruct (uint_slash_inj _ _ _ _ H) as [-> ->]. split; [|done].
  apply str_inj. congruence.
Qed.

(** The time-signature tokens are pairwise distinct, whatever the maximal
    bar length. *)
Theorem time_signature_tokens_NoDup M key :
  NoDup (get_time_signature_tokens M key).
Proof.
  unfold get_time_signature_tokens. apply NoDup_keyed.
  set (f := fun q => map (fun p => str p +:+ "/" +:+ str q) (range 1 (M * q + 1))).
  change (NoDup ([2; 4; 8; 16] ≫= f)).
  apply NoDup_bind.
  - intros q1 q2 y _ _ Hy1 Hy2.
    apply list_elem_of_In, in_map_iff in Hy1 as (p1 & <- & Hp1).
    apply list_elem_of_In, in_map_iff in Hy2 as (p2 & Heq & Hp2).
    apply list_elem_of_In, elem_of_range in Hp1, Hp2.
    apply str_slash_inj in Heq as [_ Heq]; [|lia..].
    symmetry. now apply str_inj.
  - intros q _. unfold f.
    change (NoDup ((fun p => str p +:+ "/" +:+ str q) <$> range 1 (M * q + 1))).
    apply NoDup_fmap_2_strong; [|apply NoDup_range].
    intros x y Hx Hy H. apply elem_of_range in Hx, Hy.
    apply str_slash_inj in H as [H _]; [done|lia..].
  - apply (bool_decide_unpack _). vm_compute. exact I.
Qed.

(** Thirty time signatures per unit of the maximal bar length, and none at
    all when it is not positive. *)
Theorem time_signature_tokens_count M key :
  (0 <= M → Z.of_nat (length (get_time_signature_tokens M key)) = 30 * M) ∧
  (M <= 0 → get_time_signature_tokens M key = []).
Proof.
  split.
  - intros HM. rewrite length_time_signature_tokens. lia.
  - intros HM. apply length_zero_iff_nil.
    rewrite length_time_signature_tokens. lia.
Qed.

Lemma time_signature_tokens_count_witness :
  0 <= 3 ∧ -1 <= 0 ∧
  Z.of_nat (length (get_time_signature_tokens 3 "TimeSig")) = 30 * 3 ∧
  get_time_signature_tokens (-1) "TimeSig" = [].
Proof.
  assert (H1 : 0 <= 3) by lia. assert (H2 : -1 <= 0) by lia.
  split; [exact H1|]. split; [exact H2|]. split.
  - exact (proj1 (time_signature_tokens_count 3 "TimeSig") H1).
  - exact (proj2 (time_signature_tokens_count (-1) "TimeSig") H2).
Defined.

(** The instrument tokens are pairwise distinct when the instrument names
    of the programs 0..127 are, and none of them is [drum]. *)
Theorem instrument_tokens_NoDup (name : Z → string) key :
  (∀ i j, 0 <= i < 128 → 0 <= j < 128 → name i = name j → i = j) →
  (∀ i, 0 <= i < 128 → name i ≠ "drum") →
  NoDup (get_instrument_tokens name key).
Proof.
  intros Hinj Hdrum. unfold get_instrument_tokens.
  apply NoDup_app. split; [|split].
  - change (NoDup ((fun i => keyed key (name i)) <$> range 0 128)).
    apply NoDup_fmap_2_strong; [|apply NoDup_range].
    intros x y Hx Hy H. apply elem_of_range in Hx, Hy.
    apply keyed_inj in H. now apply Hinj.
  - intros y Hy Hd. apply list_elem_of_singleton in Hd. subst y.
    apply list_elem_of_In, in_map_iff in Hy as (i & Heq & Hi).
    apply list_elem_of_In, elem_of_range in Hi.
    apply keyed_inj in Heq. now apply (Hdrum i).
  - apply NoDup_singleton.
Qed.

Lemma instrument_tokens_NoDup_witness :
  (∀ i j, 0 <= i < 128 → 0 <= j < 128 → str i = str j → i = j) ∧
  (∀ i, 0 <= i < 128 → str i ≠ "drum") ∧
  NoDup (get_instrument_tokens str "Instrument").
Proof.
  assert (H1 : ∀ i j, 0 <= i < 128 → 0 <= j < 128 → str i = str j → i = j)
    by (intros i j _ _; apply str_inj).
  assert (H2 : ∀ i, 0 <= i < 128 → str i ≠ "drum").
  { intros i _ H. pose proof (int_of_string_str i) as Hi.
    rewrite H in Hi. discriminate Hi. }
  split; [exact H1|]. split; [exact H2|].
  exact (instrument_tokens_NoDup str "Instrument" H1 H2).
Defined.

(** ** The token file *)

Lemma split_nl_nonempty s : split_nl s ≠ [].
Proof.
  destruct s as [|c s]; simpl; [done|].
  case_decide; [done|]. now destruct (split_nl s).
Qed.

Lemma split_nl_trailing_newline s :
  split_nl (s +:+ String newline "") = split_nl s ++ [""].
Proof.
  induction s as [|c s IH]; [done|]. simpl.
  case_decide; [now rewrite IH|]. rewrite IH.
  pose proof (split_nl_nonempty s). now destruct (split_nl s).
Qed.

Section StoreFacts.

Variable program_to_instrument_name : Z -> string.
Variables MAX_BAR_LENGTH MAX_N_BARS DEFAULT_POS_PER_QUARTER : Z.
Context {bin : Type}.
Variables DEFAULT_VELOCITY_BINS DEFAULT_DURATION_BINS DEFAULT_TEMPO_BINS : list bin.
Variables INSTRUMENT_KEY TIME_SIGNATURE_KEY PITCH_KEY VELOCITY_KEY
          DURATION_KEY TEMPO_KEY BAR_KEY POSITION_KEY CHORD_KEY : string.
Variables PAD UNK BOS EOS MASK : string.
Context `{FileSystem fs}.

#[local] Abbreviation tokens :=
  (remi_tokens program_to_instrument_name
     MAX_BAR_LENGTH MAX_N_BARS DEFAULT_POS_PER_QUARTER
     DEFAULT_VELOCITY_BINS DEFAULT_DURATION_BINS DEFAULT_TEMPO_BINS
     INSTRUMENT_KEY TIME_SIGNATURE_KEY PITCH_KEY VELOCITY_KEY
     DURATION_KEY TEMPO_KEY BAR_KEY POSITION_KEY CHORD_KEY).

(** Constructing a [RemiVocab] raises exactly what its one call of the
    file system raises, and returns otherwise.  When the token file exists
    it is read, the file system stays as it is, and a failure to read is
    not made up for by building the tokens; when it does not exist the
    built tokens are written, and a failure to write leaves no Vocab. *)
Theorem RemiVocab_init_store path (s : fs) :
  (path_exists s path = true →
   (∀ e, read_chars s path = Raise e →
      RemiVocab_init program_to_instrument_name
        MAX_BAR_LENGTH MAX_N_BARS DEFAULT_POS_PER_QUARTER
        DEFAULT_VELOCITY_BINS DEFAULT_DURATION_BINS DEFAULT_TEMPO_BINS
        INSTRUMENT_KEY TIME_SIGNATURE_KEY PITCH_KEY VELOCITY_KEY
        DURATION_KEY TEMPO_KEY BAR_KEY POSITION_KEY CHORD_KEY
        PAD UNK BOS EOS MASK path s = Raise e) ∧
   (∀ chars, read_chars s path = Ok chars →
      ∃ v, RemiVocab_init program_to_instrument_name
             MAX_BAR_LENGTH MAX_N_BARS DEFAULT_POS_PER_QUARTER
             DEFAULT_VELOCITY_BINS DEFAULT_DURATION_BINS DEFAULT_TEMPO_BINS
             INSTRUMENT_KEY TIME_SIGNATURE_KEY PITCH_KEY VELOCITY_KEY
             DURATION_KEY TEMPO_KEY BAR_KEY POSITION_KEY CHORD_KEY
             PAD UNK BOS EOS MASK path s =
           Ok (split_nl (universal_newlines chars), v, s))) ∧
  (path_exists s path = false →
   (∀ e, write_chars s path (write_newlines os_linesep (join_nl tokens)) = Raise e →
      RemiVocab_init program_to_instrument_name
        MAX_BAR_LENGTH MAX_N_BARS DEFAULT_POS_PER_QUARTER
        DEFAULT_VELOCITY_BINS DEFAULT_DURATION_BINS DEFAULT_TEMPO_BINS
        INSTRUMENT_KEY TIME_SIGNATURE_KEY PITCH_KEY VELOCITY_KEY
        DURATION_KEY TEMPO_KEY BAR_KEY POSITION_KEY CHORD_KEY
        PAD UNK BOS EOS MASK path s = Raise e) ∧
   (∀ s', write_chars s path (write_newlines os_linesep (join_nl tokens)) = Ok s' →
      ∃ v, RemiVocab_init program_to_instrument_name
             MAX_BAR_LENGTH MAX_N_BARS DEFAULT_POS_PER_QUARTER
             DEFAULT_VELOCITY_BINS DEFAULT_DURATION_BINS DEFAULT_TEMPO_BINS
             INSTRUMENT_KEY TIME_SIGNATURE_KEY PITCH_KEY VELOCITY_KEY
             DURATION_KEY TEMPO_KEY BAR_KEY POSITION_KEY CHORD_KEY
             PAD UNK BOS EOS MASK path s =
           Ok (tokens, v, s'))).
Proof.
  split; intros Hex; split.
  - intros e Hr. unfold RemiVocab_init, load_or_build, read_text.
    now rewrite Hex, Hr.
  - intros chars Hr.
    destruct (RemiVocab_init_load program_to_instrument_name
                MAX_BAR_LENGTH MAX_N_BARS DEFAULT_POS_PER_QUARTER
                DEFAULT_VELOCITY_BINS DEFAULT_DURATION_BINS DEFAULT_TEMPO_BINS
                INSTRUMENT_KEY TIME_SIGNATURE_KEY PITCH_KEY VELOCITY_KEY
                DURATION_KEY TEMPO_KEY BAR_KEY POSITION_KEY CHORD_KEY
                PAD UNK BOS EOS MASK path s chars (conj Hex Hr)) as (v & Hv & _).
    now exists v.
  - intros e Hw. unfold RemiVocab_init, load_or_build, write_text.
    now rewrite Hex, Hw.
  - intros s' Hw.
    destruct (RemiVocab_init_build program_to_instrument_name
                MAX_BAR_LENGTH MAX_N_BARS DEFAULT_POS_PER_QUARTER
                DEFAULT_VELOCITY_BINS DEFAULT_DURATION_BINS DEFAULT_TEMPO_BINS
                INSTRUMENT_KEY TIME_SIGNATURE_KEY PITCH_KEY VELOCITY_KEY
                DURATION_KEY TEMPO_KEY BAR_KEY POSITION_KEY CHORD_KEY
                PAD UNK BOS EOS MASK path s s' Hex Hw) as (v & Hv & _).
    now exists v.
Qed.

(** A token file whose text, as it is read, ends with a newline is loaded
    with the empty string as its last token, which thereby is a token of
    the vocabulary. *)
Theorem RemiVocab_init_trailing_newline path (s : fs) text :
  path_exists s path = true →
  read_text s path = Ok (text +:+ String newline "") →
  ∃ v, RemiVocab_init program_to_instrument_name
         MAX_BAR_LENGTH MAX_N_BARS DEFAULT_POS_PER_QUARTER
         DEFAULT_VELOCITY_BINS DEFAULT_DURATION_BINS DEFAULT_TEMPO_BINS
         INSTRUMENT_KEY TIME_SIGNATURE_KEY PITCH_KEY VELOCITY_KEY
         DURATION_KEY TEMPO_KEY BAR_KEY POSITION_KEY CHORD_KEY
         PAD UNK BOS EOS MASK path s =
       Ok (split_nl text ++ [""], v, s) ∧
       "" ∈ backward_map v.
Proof.
  intros Hex Hr. unfold RemiVocab_init, load_or_build. rewrite Hex, Hr.
  cbn [mbind result_bind Py.bind]. rewrite split_nl_trailing_newline.
  destruct (Vocab_init_ok (Counter (split_nl text ++ [""]))
              [PAD; UNK; BOS; EOS; MASK] UNK) as (d & Hv & _).
  rewrite Hv. eexists. split; [reflexivity|]. simpl.
  rewrite final_maps_backward_Counter.
  destruct (decide ("" ∈ [PAD; UNK; BOS; EOS; MASK])) as [Hin|Hin].
  - apply elem_of_app. now left.
  - apply elem_of_app. right. apply elem_of_first_seen. split; [|done].
    apply elem_of_app. right. apply list_elem_of_here.
Qed.

End StoreFacts.

Lemma RemiVocab_init_store_witness :
  path_exists (∅ : store) "tokens/remi_tokens.txt" = false ∧
  sample_RemiVocab_init "tokens/remi_tokens.txt" ∅ = Raise FileNotFoundError ∧
  path_exists tokens_dir "tokens" = true ∧
  sample_RemiVocab_init "tokens" tokens_dir = Raise IsADirectoryError.
Proof.
  assert (H1 : path_exists (∅ : store) "tokens/remi_tokens.txt" = false)
    by (vm_compute; reflexivity).
  assert (H2 : path_exists tokens_dir "tokens" = true)
    by (vm_compute; reflexivity).
  split; [exact H1|]. split; [|split; [exact H2|]].
  - apply (proj2 (RemiVocab_init_store str 1 2 1 [(); ()] [(); ()] [(); ()]
             "Instrument" "TimeSig" "Pitch" "Velocity" "Duration" "Tempo" "Bar"
             "Position" "Chord" PAD_TOKEN UNK_TOKEN BOS_TOKEN EOS_TOKEN MASK_TOKEN
             "tokens/remi_tokens.txt" (∅ : store)) H1).
    vm_compute. reflexivity.
  - apply (proj1 (RemiVocab_init_store str 1 2 1 [(); ()] [(); ()] [(); ()]
             "Instrument" "TimeSig" "Pitch" "Velocity" "Duration" "Tempo" "Bar"
             "Position" "Chord" PAD_TOKEN UNK_TOKEN BOS_TOKEN EOS_TOKEN MASK_TOKEN
             "tokens" tokens_dir) H2).
    vm_compute. reflexivity.
Defined.

Lemma RemiVocab_init_trailing_newline_witness :
  path_exists
    (<["tokens/remi_tokens.txt" :=
         File ("Pitch_60" +:+ String carriage_return (String newline ""))]>
       tokens_dir) "tokens/remi_tokens.txt" = true ∧
  read_text
    (<["tokens/remi_tokens.txt" :=
         File ("Pitch_60" +:+ String carriage_return (String newline ""))]>
       tokens_dir) "tokens/remi_tokens.txt" =
    Ok ("Pitch_60" +:+ String newline "") ∧
  ∃ v, sample_RemiVocab_init "tokens/remi_tokens.txt"
         (<["tokens/remi_tokens.txt" :=
              File ("Pitch_60" +:+ String carriage_return (String newline ""))]>
            tokens_dir) =
       Ok (split_nl "Pitch_60" ++ [""], v,
           <["tokens/remi_tokens.txt" :=
               File ("Pitch_60" +:+ String carriage_return (String newline ""))]>
             tokens_dir) ∧
       "" ∈ backward_map v.
Proof.
  assert (H1 : path_exists
    (<["tokens/remi_tokens.txt" :=
         File ("Pitch_60" +:+ String carriage_return (String newline ""))]>
       tokens_dir) "tokens/remi_tokens.txt" = true)
    by (vm_compute; reflexivity).
  assert (H2 : read_text
    (<["tokens/remi_tokens.txt" :=
         File ("Pitch_60" +:+ String carriage_return (String newline ""))]>
       tokens_dir) "tokens/remi_tokens.txt" =
    Ok ("Pitch_60" +:+ String newline ""))
    by (vm_compute; reflexivity).
  split; [exact H1|]. split; [exact H2|].
  exact (RemiVocab_init_trailing_newline str 1 2 1 [(); ()] [(); ()] [(); ()]
           "Instrument" "TimeSig" "Pitch" "Velocity" "Duration" "Tempo" "Bar"
           "Position" "Chord" PAD_TOKEN UNK_TOKEN BOS_TOKEN EOS_TOKEN MASK_TOKEN
           _ _ _ H1 H2).
Defined.

Lemma RemiVocab_init_twice_witness :
  Forall one_line sample_remi_tokens ∧
  path_exists tokens_dir "tokens/remi_tokens.txt" = false ∧
  write_chars tokens_dir "tokens/remi_tokens.txt"
    (write_newlines os_linesep (join_nl sample_remi_tokens)) =
    Ok (<["tokens/remi_tokens.txt" := File (join_nl sample_remi_tokens)]>
          tokens_dir) ∧
  stored (<["tokens/remi_tokens.txt" := File (join_nl sample_remi_tokens)]>
            tokens_dir)
    "tokens/remi_tokens.txt"
    (write_newlines os_linesep (join_nl sample_remi_tokens)) ∧
  ∃ v,
    sample_RemiVocab_init "tokens/remi_tokens.txt" tokens_dir =
      Ok (sample_remi_tokens, v,
          <["tokens/remi_tokens.txt" := File (join_nl sample_remi_tokens)]>
            tokens_dir) ∧
    sample_RemiVocab_init "tokens/remi_tokens.txt"
      (<["tokens/remi_tokens.txt" := File (join_nl sample_remi_tokens)]>
         tokens_dir) =
      Ok (sample_remi_tokens, v,
          <["tokens/remi_tokens.txt" := File (join_nl sample_remi_tokens)]>
            tokens_dir).
Proof.
  assert (H1 : Forall one_line sample_remi_tokens)
    by (apply (bool_decide_unpack _); vm_compute; exact I).
  assert (H2 : path_exists tokens_dir "tokens/remi_tokens.txt" = false)
    by (vm_compute; reflexivity).
  assert (H3 : write_chars tokens_dir "tokens/remi_tokens.txt"
                 (write_newlines os_linesep (join_nl sample_remi_tokens)) =
               Ok (<["tokens/remi_tokens.txt" := File (join_nl sample_remi_tokens)]>
                     tokens_dir))
    by (vm_compute; reflexivity).
  assert (H4 : stored (<["tokens/remi_tokens.txt" := File (join_nl sample_remi_tokens)]>
                         tokens_dir)
                 "tokens/remi_tokens.txt"
                 (write_newlines os_linesep (join_nl sample_remi_tokens)))
    by (split; vm_compute; reflexivity).
  split; [exact H1|]. split; [exact H2|]. split; [exact H3|].
  split; [exact H4|].
  exact (RemiVocab_init_twice str 1 2 1 [(); ()] [(); ()] [(); ()]
           "Instrument" "TimeSig" "Pitch" "Velocity" "Duration" "Tempo" "Bar"
           "Position" "Chord" PAD_TOKEN UNK_TOKEN BOS_TOKEN EOS_TOKEN MASK_TOKEN
           _ _ _ H1 H2 H3 H4).
Defined.

Section DescriptionVocabFacts.

Variable program_to_instrument_name : Z -> string.
Variables MAX_BAR_LENGTH MAX_N_BARS : Z.
Context {bin : Type}.
Variables DEFAULT_NOTE_DENSITY_BINS DEFAULT_MEAN_VELOCITY_BINS
          DEFAULT_MEAN_PITCH_BINS DEFAULT_MEAN_DURATION_BINS : list bin.
Variables TIME_SIGNATURE_KEY INSTRUMENT_KEY CHORD_KEY BAR_KEY
          NOTE_DENSITY_KEY MEAN_VELOCITY_KEY MEAN_PITCH_KEY
          MEAN_DURATION_KEY : string.
Variables PAD UNK BOS EOS MASK : string.
Context `{FileSystem fs}.

#[local] Abbreviation dtokens :=
  (description_tokens program_to_instrument_name MAX_BAR_LENGTH MAX_N_BARS
     DEFAULT_NOTE_DENSITY_BINS DEFAULT_MEAN_VELOCITY_BINS
     DEFAULT_MEAN_PITCH_BINS DEFAULT_MEAN_DURATION_BINS
     TIME_SIGNATURE_KEY INSTRUMENT_KEY CHORD_KEY BAR_KEY
     NOTE_DENSITY_KEY MEAN_VELOCITY_KEY MEAN_PITCH_KEY MEAN_DURATION_KEY).

#[local] Abbreviation dinit :=
  (DescriptionVocab_init program_to_instrument_name MAX_BAR_LENGTH MAX_N_BARS
     DEFAULT_NOTE_DENSITY_BINS DEFAULT_MEAN_VELOCITY_BINS
     DEFAULT_MEAN_PITCH_BINS DEFAULT_MEAN_DURATION_BINS
     TIME_SIGNATURE_KEY INSTRUMENT_KEY CHORD_KEY BAR_KEY
     NOTE_DENSITY_KEY MEAN_VELOCITY_KEY MEAN_PITCH_KEY MEAN_DURATION_KEY
     PAD UNK BOS EOS MASK).

(** The drum instrument and the sentinel chord are always there. *)
Lemma description_tokens_nonempty : dtokens ≠ [].
Proof.
  unfold description_tokens, get_instrument_tokens. intros Hnil.
  apply app_eq_nil in Hnil as [_ Hnil]. apply app_eq_nil in Hnil as [Hnil _].
  apply app_eq_nil in Hnil as [_ Hnil]. discriminate Hnil.
Qed.

(** When no token contains a newline or a carriage return, the first
    construction of a [DescriptionVocab] writes the token file and, the
    file holding what was written, a second construction loads the same
    tokens from it and builds the same Vocab. *)
Theorem DescriptionVocab_init_twice path (s s1 : fs) :
  Forall one_line dtokens →
  path_exists s path = false →
  write_chars s path (write_newlines os_linesep (join_nl dtokens)) = Ok s1 →
  stored s1 path (write_newlines os_linesep (join_nl dtokens)) →
  ∃ v, dinit path s = Ok (dtokens, v, s1) ∧
       dinit path s1 = Ok (dtokens, v, s1).
Proof.
  intros Hall Hex Hw Hst.
  destruct (Vocab_init_ok (Counter dtokens) [PAD; UNK; BOS; EOS; MASK] UNK)
    as (d & Hv & _).
  eexists. unfold DescriptionVocab_init.
  rewrite (load_or_build_build _ _ _ _ Hex Hw).
  rewrite (load_or_build_reload _ _ _ Hall Hst).
  rewrite split_nl_join_nl.
  - cbn [mbind result_bind Py.bind]. now rewrite Hv.
  - apply description_tokens_nonempty.
  - eapply Forall_impl; [exact Hall|]. now intros t [? _].
Qed.

End DescriptionVocabFacts.

Lemma DescriptionVocab_init_twice_witness :
  Forall one_line sample_description_tokens ∧
  path_exists tokens_dir "tokens/description_tokens.txt" = false ∧
  write_chars tokens_dir "tokens/description_tokens.txt"
    (write_newlines os_linesep (join_nl sample_description_tokens)) =
    Ok (<["tokens/description_tokens.txt" :=
            File (join_nl sample_description_tokens)]> tokens_dir) ∧
  stored (<["tokens/description_tokens.txt" :=
              File (join_nl sample_description_tokens)]> tokens_dir)
    "tokens/description_tokens.txt"
    (write_newlines os_linesep (join_nl sample_description_tokens)) ∧
  ∃ v,
    sample_DescriptionVocab_init "tokens/description_tokens.txt" tokens_dir =
      Ok (sample_description_tokens, v,
          <["tokens/description_tokens.txt" :=
              File (join_nl sample_description_tokens)]> tokens_dir) ∧
    sample_DescriptionVocab_init "tokens/description_tokens.txt"
      (<["tokens/description_tokens.txt" :=
           File (join_nl sample_description_tokens)]> tokens_dir) =
      Ok (sample_description_tokens, v,
          <["tokens/description_tokens.txt" :=
              File (join_nl sample_description_tokens)]> tokens_dir).
Proof.
  assert (H1 : Forall one_line sample_description_tokens)
    by (apply (bool_decide_unpack _); vm_compute; exact I).
  assert (H2 : path_exists tokens_dir "tokens/description_tokens.txt" = false)
    by (vm_compute; reflexivity).
  assert (H3 : write_chars tokens_dir "tokens/description_tokens.txt"
                 (write_newlines os_linesep (join_nl sample_description_tokens)) =
               Ok (<["tokens/description_tokens.txt" :=
                       File (join_nl sample_description_tokens)]> tokens_dir))
    by (vm_compute; reflexivity).
  assert (H4 : stored (<["tokens/description_tokens.txt" :=
                           File (join_nl sample_description_tokens)]> tokens_dir)
                 "tokens/description_tokens.txt"
                 (write_newlines os_linesep (join_nl sample_description_tokens)))
    by (split; vm_compute; reflexivity).
  split; [exact H1|]. split; [exact H2|]. split; [exact H3|].
  split; [exact H4|].
  exact (DescriptionVocab_init_twice str 1 2 [(); ()] [(); ()] [(); ()] [(); ()]
           "TimeSig" "Instrument" "Chord" "Bar" "NoteDensity" "MeanVelocity"
           "MeanPitch" "MeanDuration"
           PAD_TOKEN UNK_TOKEN BOS_TOKEN EOS_TOKEN MASK_TOKEN _ _ _ H1 H2 H3 H4).
Defined.

(** ** Sizes of the token lists *)

Section TokenCounts.

Variable program_to_instrument_name : Z -> string.
Variables MAX_BAR_LENGTH MAX_N_BARS DEFAULT_POS_PER_QUARTER : Z.
Context {bin : Type}.
Variables DEFAULT_VELOCITY_BINS DEFAULT_DURATION_BINS DEFAULT_TEMPO_BINS : list bin.

(** With constants that are not negative the MIDI event vocabulary has
    [30 * MAX_BAR_LENGTH] time signatures, one token per tempo, velocity
    and duration bin, 129 instruments, 256 pitches, [MAX_N_BARS] bars and
    [4 * MAX_BAR_LENGTH * DEFAULT_POS_PER_QUARTER] positions. *)
Theorem midi_tokens_length
    (instrument_key time_signature_key pitch_key velocity_key
     duration_key tempo_key bar_key position_key : string) :
  0 <= MAX_BAR_LENGTH → 0 <= MAX_N_BARS → 0 <= DEFAULT_POS_PER_QUARTER →
  len (get_midi_tokens program_to_instrument_name
         MAX_BAR_LENGTH MAX_N_BARS DEFAULT_POS_PER_QUARTER
         DEFAULT_VELOCITY_BINS DEFAULT_DURATION_BINS DEFAULT_TEMPO_BINS
         instrument_key time_signature_key pitch_key velocity_key
         duration_key tempo_key bar_key position_key) =
  30 * MAX_BAR_LENGTH + len DEFAULT_TEMPO_BINS + 129 + 256 +
  len DEFAULT_VELOCITY_BINS + len DEFAULT_DURATION_BINS + MAX_N_BARS +
  MAX_BAR_LENGTH * 4 * DEFAULT_POS_PER_QUARTER.
Proof.
  intros HM HB HP. unfold get_midi_tokens, get_instrument_tokens.
  rewrite !len_app. unfold len at 1.
  rewrite length_time_signature_tokens.
  unfold len. rewrite !length_map, !length_range. simpl length.
  unfold len. nia.
Qed.

End TokenCounts.

Lemma midi_tokens_length_witness :
  0 <= 3 ∧ 0 <= 512 ∧ 0 <= 12 ∧
  len (get_midi_tokens str 3 512 12 [(); ()] [(); ()] [(); ()]
         "Instrument" "TimeSig" "Pitch" "Velocity" "Duration" "Tempo" "Bar"
         "Position") =
  30 * 3 + len [(); ()] + 129 + 256 + len [(); ()] + len [(); ()] + 512 +
  3 * 4 * 12.
Proof.
  assert (H1 : 0 <= 3) by lia. assert (H2 : 0 <= 512) by lia.
  assert (H3 : 0 <= 12) by lia.
  split; [exact H1|]. split; [exact H2|]. split; [exact H3|].
  exact (midi_tokens_length str 3 512 12 [(); ()] [(); ()] [(); ()]
           "Instrument" "TimeSig" "Pitch" "Velocity" "Duration" "Tempo" "Bar"
           "Position" H1 H2 H3).
Defined.

Lemma Vocab_len_specials_plus_new_witness :
  NoDup ([("Pitch_60", 2); (BOS_TOKEN, 1); ("Pitch_62", 1)].*1) ∧
  ∃ v, Vocab_init [("Pitch_60", 2); (BOS_TOKEN, 1); ("Pitch_62", 1)]
         default_specials UNK_TOKEN = Ok v ∧
       backward_map v = default_specials ++ ["Pitch_60"; "Pitch_62"] ∧
       Vocab_len v = 7.
Proof.
  assert (H : NoDup ([("Pitch_60", 2); (BOS_TOKEN, 1); ("Pitch_62", 1)].*1))
    by (apply (bool_decide_unpack _); vm_compute; exact I).
  split; [exact H|].
  destruct (Vocab_len_specials_plus_new
              [("Pitch_60", 2); (BOS_TOKEN, 1); ("Pitch_62", 1)]
              default_specials UNK_TOKEN H) as (v & Hv & Hb & Hl).
  exists v. split; [exact Hv|]. split.
  - rewrite Hb. reflexivity.
  - rewrite Hl. reflexivity.
Defined.
